(** * ScoreGraph: the state core of the score tracker

    A shallow embedding of the [ScoreGraph] React component
    (players, session clock, handlers, JSON export) and the proofs of
    its specification.

    Conventions of the embedding:
    - JavaScript numbers that the component handles are integers far
      inside the exactly representable range (clock readings in
      milliseconds, scores and ids changed by one per click), so they
      are modelled as [Z] and [Math.floor (a / 1000)] as [Z.div],
      which rounds towards minus infinity for a positive divisor;
    - a JavaScript string is its sequence of UTF-16 code units;
    - [JSON.stringify] prints an integer in decimal, as
      [Number::toString] does for every integer of that range;
    - [Date.now ()], [prompt (...)] and [Math.random ()] are inputs of
      the handler that calls them;
    - a handler does not change the state it reads (the values of the
      render it closes over): it queues updates with the hook setters,
      and React applies the queue in order once the handler is done. *)

From Stdlib Require Import ZArith NArith List Lia Bool String Ascii.
From Stdlib Require Import Decimal Hexadecimal DecimalZ DecimalN DecimalFacts.
From Stdlib Require Import Sorted.
From Stdlib Require HexadecimalFacts HexadecimalPos HexadecimalN.
Import ListNotations.

Open Scope Z_scope.

(** ** Strings *)

Definition jsstring := list N.

Definition js (s : string) : jsstring :=
  List.map N_of_ascii (list_ascii_of_string s).

(** [if (s)] on a value that is a string or [null]: [null] and the empty
    string are falsy. *)
Definition truthy (s : option jsstring) : bool :=
  match s with
  | Some (_ :: _) => true
  | _ => false
  end.

Definition hex_digit_unit (d : N) : N :=
  (if d <? 10 then 48 + d else 87 + d)%N.

Fixpoint hex_units (d : Hexadecimal.uint) : jsstring :=
  match d with
  | Hexadecimal.Nil => []
  | Hexadecimal.D0 d' => 48%N :: hex_units d'
  | Hexadecimal.D1 d' => 49%N :: hex_units d'
  | Hexadecimal.D2 d' => 50%N :: hex_units d'
  | Hexadecimal.D3 d' => 51%N :: hex_units d'
  | Hexadecimal.D4 d' => 52%N :: hex_units d'
  | Hexadecimal.D5 d' => 53%N :: hex_units d'
  | Hexadecimal.D6 d' => 54%N :: hex_units d'
  | Hexadecimal.D7 d' => 55%N :: hex_units d'
  | Hexadecimal.D8 d' => 56%N :: hex_units d'
  | Hexadecimal.D9 d' => 57%N :: hex_units d'
  | Hexadecimal.Da d' => 97%N :: hex_units d'
  | Hexadecimal.Db d' => 98%N :: hex_units d'
  | Hexadecimal.Dc d' => 99%N :: hex_units d'
  | Hexadecimal.Dd d' => 100%N :: hex_units d'
  | Hexadecimal.De d' => 101%N :: hex_units d'
  | Hexadecimal.Df d' => 102%N :: hex_units d'
  end.

(** [n.toString (16)] for a non-negative integer. *)
Definition toString16 (n : N) : jsstring := hex_units (N.to_hex_uint n).

(** ** Data model *)

Record Player := mkPlayer {
  id : Z;
  name : jsstring;
  color : jsstring;
  dataPoints : list (Z * Z);
  yValue : Z
}.

(** The four [useState] cells and the [startTimeRef] cell. *)
Record State := mkState {
  players : list Player;
  firstPlayerTime : option Z;
  elapsedTime : Z;
  nextPlayerId : Z;
  startTime : Z
}.

(** The component as mounted at clock reading [t0]. *)
Definition mount (t0 : Z) : State :=
  {| players := [];
     firstPlayerTime := None;
     elapsedTime := 0;
     nextPlayerId := 1;
     startTime := t0 |}.

(** ** Queued updates *)

Inductive Update :=
| setPlayers (f : list Player -> list Player)
| setFirstPlayerTime (v : option Z)
| setElapsedTime (v : Z)
| setNextPlayerId (v : Z)
| writeStartTimeRef (v : Z).

Definition apply_update (st : State) (u : Update) : State :=
  match u with
  | setPlayers f =>
      mkState (f (players st)) (firstPlayerTime st) (elapsedTime st)
              (nextPlayerId st) (startTime st)
  | setFirstPlayerTime v =>
      mkState (players st) v (elapsedTime st) (nextPlayerId st) (startTime st)
  | setElapsedTime v =>
      mkState (players st) (firstPlayerTime st) v (nextPlayerId st)
              (startTime st)
  | setNextPlayerId v =>
      mkState (players st) (firstPlayerTime st) (elapsedTime st) v
              (startTime st)
  | writeStartTimeRef v =>
      mkState (players st) (firstPlayerTime st) (elapsedTime st)
              (nextPlayerId st) v
  end.

Definition commit (st : State) (queue : list Update) : State :=
  fold_left apply_update queue st.

(** ** Handlers

    Each handler takes the state of the render it was created in and
    returns the updates it queues. Only the interval callback outlives
    its render; it reads nothing but the ref, which is shared by all
    renders, so the state passed to it is the current one as well. *)

(** [Math.floor ((Date.now () - startTimeRef.current) / 1000)] *)
Definition elapsed (now start : Z) : Z := (now - start) / 1000.

Definition with_dataPoints (p : Player) (d : list (Z * Z)) : Player :=
  mkPlayer (id p) (name p) (color p) d (yValue p).

Definition with_yValue (p : Player) (y : Z) : Player :=
  mkPlayer (id p) (name p) (color p) (dataPoints p) y.

Definition with_color (p : Player) (c : jsstring) : Player :=
  mkPlayer (id p) (name p) c (dataPoints p) (yValue p).

(** [rnd] is [Math.floor (Math.random () * 16777215)]. *)
Definition addPlayer (playerName : option jsstring) (now : Z) (rnd : N)
    (st : State) : list Update :=
  match playerName with
  | Some playerName' =>
      if truthy playerName then
        let currentElapsedTime := elapsed now (startTime st) in
        (match firstPlayerTime st with
         | None => [setFirstPlayerTime (Some currentElapsedTime)]
         | Some _ => []
         end)
        ++ [setPlayers (fun prev =>
              prev ++ [{| id := nextPlayerId st;
                          name := playerName';
                          color := 35%N :: toString16 rnd;
                          dataPoints := [(currentElapsedTime, 0)];
                          yValue := 0 |}]);
            setNextPlayerId (nextPlayerId st + 1)]
      else []
  | None => []
  end.

Definition removePlayer (i : Z) (st : State) : list Update :=
  [setPlayers (fun prev => filter (fun player => negb (id player =? i)) prev)].

Definition updateAllPlayersWithTime (now : Z) (st : State) : list Update :=
  let currentElapsedTime := elapsed now (startTime st) in
  [setPlayers (fun prev =>
     List.map (fun player =>
       with_dataPoints player
         (dataPoints player ++ [(currentElapsedTime, yValue player)])) prev);
   setElapsedTime currentElapsedTime].

Definition incrementPlayer (i : Z) (now : Z) (st : State) : list Update :=
  setPlayers (fun prev =>
    List.map (fun player =>
      if id player =? i then with_yValue player (yValue player + 1)
      else player) prev)
  :: updateAllPlayersWithTime now st.

Definition decrementPlayer (i : Z) (now : Z) (st : State) : list Update :=
  setPlayers (fun prev =>
    List.map (fun player =>
      if id player =? i then with_yValue player (yValue player - 1)
      else player) prev)
  :: updateAllPlayersWithTime now st.

Definition changePlayerColor (i : Z) (newColor : jsstring) (st : State)
    : list Update :=
  [setPlayers (fun prev =>
     List.map (fun player =>
       if id player =? i then with_color player newColor else player) prev)].

Definition resetAllPlayers (now : Z) (st : State) : list Update :=
  [setPlayers (fun prev =>
     List.map (fun player =>
       mkPlayer (id player) (name player) (color player)
         [(match firstPlayerTime st with Some t => t | None => 0 end, 0)]
         0) prev);
   writeStartTimeRef now;
   setElapsedTime 0;
   setFirstPlayerTime None].

(** The interval callback: the synchronized append, then a second
    reading of the clock for [setElapsedTime]. *)
Definition tick (now1 now2 : Z) (st : State) : list Update :=
  updateAllPlayersWithTime now1 st
  ++ [setElapsedTime (elapsed now2 (startTime st))].

(** ** Events *)

Inductive Event :=
| AddPlayer (playerName : option jsstring) (now : Z) (rnd : N)
| RemovePlayer (i : Z)
| IncrementPlayer (i : Z) (now : Z)
| DecrementPlayer (i : Z) (now : Z)
| ChangePlayerColor (i : Z) (newColor : jsstring)
| ResetAllPlayers (now : Z)
| ExportToJson
| Tick (now1 now2 : Z).

Definition handle (e : Event) (st : State) : list Update :=
  match e with
  | AddPlayer playerName now rnd => addPlayer playerName now rnd st
  | RemovePlayer i => removePlayer i st
  | IncrementPlayer i now => incrementPlayer i now st
  | DecrementPlayer i now => decrementPlayer i now st
  | ChangePlayerColor i c => changePlayerColor i c st
  | ResetAllPlayers now => resetAllPlayers now st
  | ExportToJson => []
  | Tick now1 now2 => tick now1 now2 st
  end.

Definition step (st : State) (e : Event) : State := commit st (handle e st).

Definition run (st : State) (es : list Event) : State := fold_left step es st.

(** ** JSON

    [JSON.stringify (value, null, 2)] and [JSON.parse] on the values the
    component can hand to them: [null], booleans, integers, strings,
    arrays and objects whose keys are not array indices (such keys keep
    their insertion order). *)

Module JSON.

#[local] Set Warnings "-register-all".

Inductive value :=
| JNull
| JBool (b : bool)
| JNumber (z : Z)
| JString (s : jsstring)
| JArray (vs : list value)
| JObject (ms : list (jsstring * value)).

Open Scope N_scope.

(** *** Serialization *)

Fixpoint dec_units (d : Decimal.uint) : jsstring :=
  match d with
  | Decimal.Nil => []
  | Decimal.D0 d' => 48 :: dec_units d'
  | Decimal.D1 d' => 49 :: dec_units d'
  | Decimal.D2 d' => 50 :: dec_units d'
  | Decimal.D3 d' => 51 :: dec_units d'
  | Decimal.D4 d' => 52 :: dec_units d'
  | Decimal.D5 d' => 53 :: dec_units d'
  | Decimal.D6 d' => 54 :: dec_units d'
  | Decimal.D7 d' => 55 :: dec_units d'
  | Decimal.D8 d' => 56 :: dec_units d'
  | Decimal.D9 d' => 57 :: dec_units d'
  end.

(** [Number::toString] of an integer. *)
Definition number_to_string (z : Z) : jsstring :=
  match Z.to_int z with
  | Decimal.Pos d => dec_units d
  | Decimal.Neg d => 45 :: dec_units d
  end.

Definition is_leading_surrogate (c : N) : bool :=
  (55296 <=? c) && (c <=? 56319).

Definition is_trailing_surrogate (c : N) : bool :=
  (56320 <=? c) && (c <=? 57343).

(** [\uXXXX] with lower-case digits. *)
Definition UnicodeEscape (c : N) : jsstring :=
  [92; 117;
   hex_digit_unit (c / 4096 mod 16); hex_digit_unit (c / 256 mod 16);
   hex_digit_unit (c / 16 mod 16); hex_digit_unit (c mod 16)].

Definition quote_unit (c : N) : jsstring :=
  if c =? 8 then [92; 98]
  else if c =? 9 then [92; 116]
  else if c =? 10 then [92; 110]
  else if c =? 12 then [92; 102]
  else if c =? 13 then [92; 114]
  else if c =? 34 then [92; 34]
  else if c =? 92 then [92; 92]
  else if (c <? 32) || is_leading_surrogate c || is_trailing_surrogate c
       then UnicodeEscape c
  else [c].

(** The code points of the string, one after the other: a leading
    surrogate followed by a trailing one is a single code point and is
    copied; a surrogate on its own is escaped. *)
Fixpoint quote_units (s : jsstring) : jsstring :=
  match s with
  | [] => []
  | c :: t =>
      if is_leading_surrogate c then
        match t with
        | d :: t' =>
            if is_trailing_surrogate d then c :: d :: quote_units t'
            else UnicodeEscape c ++ quote_units t
        | [] => UnicodeEscape c
        end
      else quote_unit c ++ quote_units t
  end.

Definition QuoteJSONString (s : jsstring) : jsstring :=
  34 :: quote_units s ++ [34].

Definition gap : jsstring := [32; 32].

Fixpoint join (sep : jsstring) (parts : list jsstring) : jsstring :=
  match parts with
  | [] => []
  | p :: ps =>
      match ps with
      | [] => p
      | _ :: _ => p ++ sep ++ join sep ps
      end
  end.

Fixpoint SerializeJSONProperty (indent : jsstring) (v : value) : jsstring :=
  match v with
  | JNull => js "null"
  | JBool true => js "true"
  | JBool false => js "false"
  | JNumber z => number_to_string z
  | JString s => QuoteJSONString s
  | JArray vs =>
      let stepback := indent in
      let indent := indent ++ gap in
      match vs with
      | [] => js "[]"
      | _ :: _ =>
          [91; 10] ++ indent
          ++ join ([44; 10] ++ indent)
               (List.map (SerializeJSONProperty indent) vs)
          ++ [10] ++ stepback ++ [93]
      end
  | JObject ms =>
      let stepback := indent in
      let indent := indent ++ gap in
      match ms with
      | [] => js "{}"
      | _ :: _ =>
          [123; 10] ++ indent
          ++ join ([44; 10] ++ indent)
               (List.map (fun m =>
                  QuoteJSONString (fst m) ++ [58; 32]
                  ++ SerializeJSONProperty indent (snd m)) ms)
          ++ [10] ++ stepback ++ [125]
      end
  end.

Definition stringify (v : value) : jsstring := SerializeJSONProperty [] v.

(** *** Parsing *)

Definition is_ws (c : N) : bool :=
  (c =? 32) || (c =? 9) || (c =? 10) || (c =? 13).

Fixpoint skip_ws (s : jsstring) : jsstring :=
  match s with
  | c :: t => if is_ws c then skip_ws t else s
  | [] => []
  end.

Definition hex_val (c : N) : option N :=
  if (48 <=? c) && (c <=? 57) then Some (c - 48)
  else if (97 <=? c) && (c <=? 102) then Some (c - 87)
  else if (65 <=? c) && (c <=? 70) then Some (c - 55)
  else None.

Definition hex4 (h1 h2 h3 h4 : N) : option N :=
  match hex_val h1, hex_val h2, hex_val h3, hex_val h4 with
  | Some a, Some b, Some c, Some d => Some (a * 4096 + b * 256 + c * 16 + d)
  | _, _, _, _ => None
  end.

Definition unescape (e : N) : option N :=
  if e =? 34 then Some 34
  else if e =? 92 then Some 92
  else if e =? 47 then Some 47
  else if e =? 98 then Some 8
  else if e =? 102 then Some 12
  else if e =? 110 then Some 10
  else if e =? 114 then Some 13
  else if e =? 116 then Some 9
  else None.

Definition cons_fst (c : N) (r : option (jsstring * jsstring))
    : option (jsstring * jsstring) :=
  match r with
  | Some (str, rest) => Some (c :: str, rest)
  | None => None
  end.

(** The characters of a string literal after its opening quote, up to
    and including the closing quote. *)
Fixpoint parse_chars (s : jsstring) : option (jsstring * jsstring) :=
  match s with
  | [] => None
  | c :: t =>
      if c =? 34 then Some ([], t)
      else if c =? 92 then
        match t with
        | [] => None
        | e :: t' =>
            if e =? 117 then
              match t' with
              | h1 :: h2 :: h3 :: h4 :: t'' =>
                  match hex4 h1 h2 h3 h4 with
                  | Some u => cons_fst u (parse_chars t'')
                  | None => None
                  end
              | _ => None
              end
            else
              match unescape e with
              | Some u => cons_fst u (parse_chars t')
              | None => None
              end
        end
      else if c <? 32 then None
      else cons_fst c (parse_chars t)
  end.

Definition digit_of (c : N) : option (Decimal.uint -> Decimal.uint) :=
  if c =? 48 then Some Decimal.D0
  else if c =? 49 then Some Decimal.D1
  else if c =? 50 then Some Decimal.D2
  else if c =? 51 then Some Decimal.D3
  else if c =? 52 then Some Decimal.D4
  else if c =? 53 then Some Decimal.D5
  else if c =? 54 then Some Decimal.D6
  else if c =? 55 then Some Decimal.D7
  else if c =? 56 then Some Decimal.D8
  else if c =? 57 then Some Decimal.D9
  else None.

Fixpoint parse_digits (s : jsstring) : Decimal.uint * jsstring :=
  match s with
  | [] => (Decimal.Nil, [])
  | c :: t =>
      match digit_of c with
      | Some D => let (d, rest) := parse_digits t in (D d, rest)
      | None => (Decimal.Nil, s)
      end
  end.

(** An integer literal: no leading zero, and neither a fraction nor an
    exponent after it (those are numbers of the grammar that are not
    integers, and are left out of this fragment). *)
Definition finish_number (negative : bool) (d : Decimal.uint)
    (rest : jsstring) : option (value * jsstring) :=
  match d with
  | Decimal.Nil => None
  | Decimal.D0 (Decimal.D0 _ | Decimal.D1 _ | Decimal.D2 _ | Decimal.D3 _
               | Decimal.D4 _ | Decimal.D5 _ | Decimal.D6 _ | Decimal.D7 _
               | Decimal.D8 _ | Decimal.D9 _) => None
  | _ =>
      let v := JNumber (Z.of_int (if negative then Decimal.Neg d
                                  else Decimal.Pos d)) in
      match rest with
      | c :: _ =>
          if (c =? 46) || (c =? 101) || (c =? 69) then None
          else Some (v, rest)
      | [] => Some (v, rest)
      end
  end.

Definition parse_number (s : jsstring) : option (value * jsstring) :=
  match s with
  | [] => None
  | c :: t =>
      if c =? 45 then
        let (d, rest) := parse_digits t in finish_number true d rest
      else
        let (d, rest) := parse_digits s in finish_number false d rest
  end.

Fixpoint strip_prefix (p s : jsstring) : option jsstring :=
  match p, s with
  | [], _ => Some s
  | a :: p', b :: s' => if a =? b then strip_prefix p' s' else None
  | _ :: _, [] => None
  end.

Definition parse_literal (lit : jsstring) (v : value) (s : jsstring)
    : option (value * jsstring) :=
  match strip_prefix lit s with
  | Some rest => Some (v, rest)
  | None => None
  end.

(** Defining a property: a key that is already there keeps its place and
    takes the new value. *)
Fixpoint define (k : jsstring) (v : value) (ms : list (jsstring * value))
    : list (jsstring * value) :=
  match ms with
  | [] => [(k, v)]
  | (k', v') :: ms' =>
      if list_eq_dec N.eq_dec k k' then (k, v) :: ms'
      else (k', v') :: define k v ms'
  end.

Definition object_of (ms : list (jsstring * value)) : value :=
  JObject (fold_left (fun acc m => define (fst m) (snd m) acc) ms []).

(** Recursive descent; [fuel] bounds the number of nested calls, each of
    which consumes at least one unit of the text. *)
Fixpoint parse_value (fuel : nat) (s : jsstring) {struct fuel}
    : option (value * jsstring) :=
  match fuel with
  | O => None
  | S fuel' =>
      match skip_ws s with
      | [] => None
      | c :: t =>
          if c =? 34 then
            match parse_chars t with
            | Some (str, rest) => Some (JString str, rest)
            | None => None
            end
          else if c =? 91 then
            match skip_ws t with
            | [] => None
            | c' :: t' =>
                if c' =? 93 then Some (JArray [], t')
                else
                  match parse_elements fuel' (c' :: t') with
                  | Some (vs, rest) => Some (JArray vs, rest)
                  | None => None
                  end
            end
          else if c =? 123 then
            match skip_ws t with
            | [] => None
            | c' :: t' =>
                if c' =? 125 then Some (JObject [], t')
                else
                  match parse_members fuel' (c' :: t') with
                  | Some (ms, rest) => Some (object_of ms, rest)
                  | None => None
                  end
            end
          else if c =? 116 then parse_literal (js "true") (JBool true) (c :: t)
          else if c =? 102 then
            parse_literal (js "false") (JBool false) (c :: t)
          else if c =? 110 then parse_literal (js "null") JNull (c :: t)
          else parse_number (c :: t)
      end
  end
with parse_elements (fuel : nat) (s : jsstring) {struct fuel}
    : option (list value * jsstring) :=
  match fuel with
  | O => None
  | S fuel' =>
      match parse_value fuel' s with
      | None => None
      | Some (v, rest) =>
          match skip_ws rest with
          | [] => None
          | c :: t =>
              if c =? 44 then
                match parse_elements fuel' t with
                | Some (vs, rest') => Some (v :: vs, rest')
                | None => None
                end
              else if c =? 93 then Some ([v], t)
              else None
          end
      end
  end
with parse_members (fuel : nat) (s : jsstring) {struct fuel}
    : option (list (jsstring * value) * jsstring) :=
  match fuel with
  | O => None
  | S fuel' =>
      match skip_ws s with
      | [] => None
      | q :: t =>
          if q =? 34 then
            match parse_chars t with
            | None => None
            | Some (k, rest) =>
                match skip_ws rest with
                | [] => None
                | c :: t' =>
                    if c =? 58 then
                      match parse_value fuel' t' with
                      | None => None
                      | Some (v, rest') =>
                          match skip_ws rest' with
                          | [] => None
                          | c' :: t'' =>
                              if c' =? 44 then
                                match parse_members fuel' t'' with
                                | Some (ms, rest'') =>
                                    Some ((k, v) :: ms, rest'')
                                | None => None
                                end
                              else if c' =? 125 then Some ([(k, v)], t'')
                              else None
                          end
                      end
                    else None
                end
            end
          else None
      end
  end.

Definition parse (s : jsstring) : option value :=
  match parse_value (S (List.length s)) s with
  | Some (v, rest) =>
      match skip_ws rest with
      | [] => Some v
      | _ :: _ => None
      end
  | None => None
  end.

(** *** Measures and side conditions of the round trip *)

(** A bound on the depth of the calls [parse_value] makes on the text of
    a value. *)
Fixpoint weight (v : value) : nat :=
  match v with
  | JArray vs => S (fold_right (fun v acc => S (weight v + acc)%nat) O vs)
  | JObject ms =>
      S (fold_right (fun m acc => S (weight (snd m) + acc)%nat) O ms)
  | _ => 1%nat
  end.

(** The objects of a value have pairwise distinct keys, as every object
    of the language has. *)
Fixpoint distinct_keys (v : value) : Prop :=
  match v with
  | JArray vs => fold_right (fun v acc => distinct_keys v /\ acc) True vs
  | JObject ms =>
      NoDup (List.map fst ms)
      /\ fold_right (fun m acc => distinct_keys (snd m) /\ acc) True ms
  | _ => True
  end.

(** What may follow the text of a value for the value to end there: not
    a digit, a fraction or an exponent. *)
Definition ends_value (rest : jsstring) : Prop :=
  match rest with
  | [] => True
  | c :: _ => digit_of c = None /\ c <> 46 /\ c <> 101 /\ c <> 69
  end.

(** A run of white space. *)
Definition blank (w : jsstring) : Prop := Forall (fun c => is_ws c = true) w.

(** The first unit of the text of a value. *)
Definition opens_value (c : N) : Prop :=
  is_ws c = false /\ c <> 93 /\ c <> 125.

(** The text of a value, whatever follows it, parses back to the value
    and leaves what follows. *)
Definition round_trips (v : value) : Prop :=
  distinct_keys v ->
  forall (indent rest : jsstring) (fuel : nat),
    blank indent ->
    (weight v <= fuel)%nat ->
    ends_value rest ->
    parse_value fuel (SerializeJSONProperty indent v ++ rest)
    = Some (v, rest).

End JSON.

(** ** Export *)

Definition point_value (pt : Z * Z) : JSON.value :=
  JSON.JArray [JSON.JNumber (fst pt); JSON.JNumber (snd pt)].

Definition player_value (player : Player) : JSON.value :=
  JSON.JObject
    [(js "id", JSON.JNumber (id player));
     (js "name", JSON.JString (name player));
     (js "color", JSON.JString (color player));
     (js "dataPoints", JSON.JArray (List.map point_value (dataPoints player)))].

Definition exportData (st : State) : JSON.value :=
  JSON.JObject
    [(js "elapsedTime", JSON.JNumber (elapsedTime st));
     (js "players", JSON.JArray (List.map player_value (players st)))].

(** The text handed to the download link. *)
Definition exportToJson (st : State) : jsstring :=
  JSON.stringify (exportData st).

(** ** Traces *)

(** The ids handed out by the successful [addPlayer] calls of a trace,
    in the order of the calls. *)
Fixpoint assigned_ids (st : State) (es : list Event) : list Z :=
  match es with
  | [] => []
  | e :: es' =>
      match e with
      | AddPlayer playerName _ _ =>
          if truthy playerName then [nextPlayerId st] else []
      | _ => []
      end ++ assigned_ids (step st e) es'
  end.

(** The readings of the clock a handler takes, in the order it takes
    them. *)
Definition readings (e : Event) : list Z :=
  match e with
  | AddPlayer playerName now _ => if truthy playerName then [now] else []
  | IncrementPlayer _ now => [now]
  | DecrementPlayer _ now => [now]
  | ResetAllPlayers now => [now]
  | Tick now1 now2 => [now1; now2]
  | RemovePlayer _ => []
  | ChangePlayerColor _ _ => []
  | ExportToJson => []
  end.

(** A clock that never goes backwards, from the reading taken at mount. *)
Definition clock_monotone (t0 : Z) (es : list Event) : Prop :=
  StronglySorted Z.le (t0 :: flat_map readings es).




(** ** Predicates of the specification *)

(** The time of the synchronized append an event performs. *)
Definition append_time (st : State) (e : Event) : option Z :=
  match e with
  | IncrementPlayer _ now => Some (elapsed now (startTime st))
  | DecrementPlayer _ now => Some (elapsed now (startTime st))
  | Tick now1 _ => Some (elapsed now1 (startTime st))
  | _ => None
  end.


(** [q] is [p] after a score change of [delta] aimed at id [i] and the
    append at time [x] that follows it. *)
Definition adjusted (delta i x : Z) (p q : Player) : Prop :=
  id q = id p /\ name q = name p /\ color q = color p /\
  yValue q = (if id p =? i then yValue p + delta else yValue p) /\
  dataPoints q = dataPoints p ++ [(x, yValue q)].

(** An [addPlayer] whose prompt was cancelled or left empty, or a
    [removePlayer] of an id nobody holds. *)
Definition ineffective (st : State) (e : Event) : Prop :=
  match e with
  | AddPlayer playerName _ _ => playerName = None \/ playerName = Some []
  | RemovePlayer i => ~ In i (List.map id (players st))
  | _ => False
  end.


Definition xs (p : Player) : list Z := List.map fst (dataPoints p).




(** ** The scenario of the specification *)

Definition Alice : jsstring := js "Alice".
Definition Bob : jsstring := js "Bob".

Definition scenario : list Event :=
  [AddPlayer (Some Alice) 100 255;
   IncrementPlayer 1 5200;
   AddPlayer (Some Bob) 5900 4096;
   DecrementPlayer 2 8000].

Definition scenario_then_reset : list Event :=
  scenario ++ [ResetAllPlayers 9000; Tick 11000 11001;
               IncrementPlayer 2 12500].

(** ** The chart

    The two objects handed to the [Line] component on every render. *)

Record Dataset := mkDataset {
  label : jsstring;
  data : list (Z * Z);
  borderColor : jsstring;
  fill : bool;
  tension : Decimal.decimal;
  spanGaps : bool
}.

Record GraphData := mkGraphData {
  labels : list Z;
  datasets : list Dataset
}.

(** [Array.from ({ length: n }, (_, i) => i)]: a length that is not
    positive gives the empty array. *)
Definition Array_from_indices (n : Z) : list Z :=
  List.map Z.of_nat (seq 0 (Z.to_nat n)).

Definition graphData (st : State) : GraphData :=
  {| labels := Array_from_indices (elapsedTime st + 1);
     datasets :=
       List.map
         (fun player =>
            {| label := name player;
               data := dataPoints player;
               borderColor := color player;
               fill := false;
               tension :=
                 Decimal.Decimal (Decimal.Pos (Decimal.D0 Decimal.Nil))
                   (Decimal.D1 Decimal.Nil);
               spanGaps := true |})
         (players st) |}.

Record AxisTitle := mkAxisTitle {
  display : bool;
  text : jsstring
}.

Record XScale := mkXScale {
  type : jsstring;
  title : AxisTitle;
  min : Z;
  max : Z
}.

(** The [title] of the y scale is the field [y_title]. *)
Record YScale := mkYScale {
  y_title : AxisTitle;
  beginAtZero : bool
}.

Record Scales := mkScales {
  x : XScale;
  y : YScale
}.

Record GraphOptions := mkGraphOptions {
  scales : Scales
}.

Definition graphOptions (st : State) : GraphOptions :=
  {| scales :=
       {| x := {| type := js "linear";
                  title := {| display := true;
                              text := js "Time (seconds)" |};
                  min := match firstPlayerTime st with
                         | Some t => t
                         | None => 0
                         end;
                  max := elapsedTime st |};
          y := {| y_title := {| display := true; text := js "Y Value" |};
                  beginAtZero := true |} |} |}.

(** ** Ids read from the players

    The ids that the successful [addPlayer] calls of a trace stored, read
    from the players each call appended to the list. *)

Definition is_successful_add (e : Event) : bool :=
  match e with
  | AddPlayer playerName _ _ => truthy playerName
  | _ => false
  end.

Definition successful_adds (es : list Event) : nat :=
  List.length (filter is_successful_add es).

Fixpoint added_ids (st : State) (es : list Event) : list Z :=
  match es with
  | [] => []
  | e :: es' =>
      (if is_successful_add e
       then List.map id
              (skipn (List.length (players st)) (players (step st e)))
       else [])
      ++ added_ids (step st e) es'
  end.

(** The number a string of hexadecimal digits denotes; [None] for the
    empty string and for a string with another character. *)
Definition hex_value (s : jsstring) : option N :=
  match s with
  | [] => None
  | _ :: _ =>
      fold_left
        (fun acc c =>
           match acc, JSON.hex_val c with
           | Some a, Some d => Some (16 * a + d)%N
           | _, _ => None
           end)
        s (Some 0%N)
  end.

(** ** Further predicates *)

(** [q] is [p] after the color of the holders of id [i] was set to [c]. *)
Definition recolored (i : Z) (c : jsstring) (p q : Player) : Prop :=
  id q = id p /\ name q = name p /\ yValue q = yValue p
  /\ dataPoints q = dataPoints p
  /\ color q = (if id p =? i then c else color p).

Definition ys (p : Player) : list Z := List.map snd (dataPoints p).

(** Neighbouring values differ by at most one. *)
Fixpoint unit_steps (l : list Z) : Prop :=
  match l with
  | [] => True
  | a :: l' =>
      match l' with
      | [] => True
      | b :: _ => -1 <= b - a <= 1
      end
      /\ unit_steps l'
  end.

(** The scores recorded in a series start at 0, move by at most one
    from a point to the next, and end at the current score. *)
Definition score_ok (p : Player) : Prop :=
  hd_error (ys p) = Some 0
  /\ List.last (ys p) 0 = yValue p
  /\ unit_steps (ys p).

Definition is_hex_digit_unit (c : N) : Prop :=
  (48 <= c <= 57 \/ 97 <= c <= 102)%N.

(** What the chart relies on, with the clock last read at [last]. *)
Definition chart_ok (last : Z) (st : State) : Prop :=
  startTime st <= last
  /\ 0 <= elapsedTime st <= elapsed last (startTime st)
  /\ match firstPlayerTime st with
     | Some t => 0 <= t <= elapsed last (startTime st)
     | None => True
     end
  /\ Forall (fun p => Forall (fun t => 0 <= t <= elapsedTime st) (tl (xs p)))
       (players st).

(** * Proofs *)

(** ** What each event does to the state *)

Section Steps.

Variable st : State.

Lemma step_addPlayer_some (c : N) (s : jsstring) (now : Z) (rnd : N) :
  step st (AddPlayer (Some (c :: s)) now rnd) =
  mkState
    (players st ++
       [mkPlayer (nextPlayerId st) (c :: s) (35%N :: toString16 rnd)
          [(elapsed now (startTime st), 0)] 0])
    (match firstPlayerTime st with
     | None => Some (elapsed now (startTime st))
     | Some t => Some t
     end)
    (elapsedTime st) (nextPlayerId st + 1) (startTime st).
Proof.
  unfold step, handle, addPlayer, commit.
  destruct st as [ps [t|] et nid start]; reflexivity.
Qed.

Lemma step_addPlayer_falsy (playerName : option jsstring) (now : Z) (rnd : N) :
  truthy playerName = false -> step st (AddPlayer playerName now rnd) = st.
Proof.
  intros H. unfold step, handle, addPlayer.
  destruct playerName as [[|c s]|]; try discriminate; reflexivity.
Qed.

Lemma step_removePlayer (i : Z) :
  step st (RemovePlayer i) =
  mkState (filter (fun player => negb (id player =? i)) (players st))
    (firstPlayerTime st) (elapsedTime st) (nextPlayerId st) (startTime st).
Proof. reflexivity. Qed.

Lemma step_incrementPlayer (i now : Z) :
  step st (IncrementPlayer i now) =
  mkState
    (List.map
       (fun player =>
          with_dataPoints player
            (dataPoints player
               ++ [(elapsed now (startTime st), yValue player)]))
       (List.map
          (fun player =>
             if id player =? i then with_yValue player (yValue player + 1)
             else player) (players st)))
    (firstPlayerTime st) (elapsed now (startTime st))
    (nextPlayerId st) (startTime st).
Proof. reflexivity. Qed.

Lemma step_decrementPlayer (i now : Z) :
  step st (DecrementPlayer i now) =
  mkState
    (List.map
       (fun player =>
          with_dataPoints player
            (dataPoints player
               ++ [(elapsed now (startTime st), yValue player)]))
       (List.map
          (fun player =>
             if id player =? i then with_yValue player (yValue player - 1)
             else player) (players st)))
    (firstPlayerTime st) (elapsed now (startTime st))
    (nextPlayerId st) (startTime st).
Proof. reflexivity. Qed.

Lemma step_changePlayerColor (i : Z) (c : jsstring) :
  step st (ChangePlayerColor i c) =
  mkState
    (List.map
       (fun player => if id player =? i then with_color player c else player)
       (players st))
    (firstPlayerTime st) (elapsedTime st) (nextPlayerId st) (startTime st).
Proof. reflexivity. Qed.

Lemma step_resetAllPlayers (now : Z) :
  step st (ResetAllPlayers now) =
  mkState
    (List.map
       (fun player =>
          mkPlayer (id player) (name player) (color player)
            [(match firstPlayerTime st with Some t => t | None => 0 end, 0)]
            0)
       (players st))
    None 0 (nextPlayerId st) now.
Proof. reflexivity. Qed.

Lemma step_exportToJson : step st ExportToJson = st.
Proof. reflexivity. Qed.

Lemma step_tick (now1 now2 : Z) :
  step st (Tick now1 now2) =
  mkState
    (List.map
       (fun player =>
          with_dataPoints player
            (dataPoints player
               ++ [(elapsed now1 (startTime st), yValue player)]))
       (players st))
    (firstPlayerTime st) (elapsed now2 (startTime st))
    (nextPlayerId st) (startTime st).
Proof. reflexivity. Qed.

End Steps.

Lemma truthy_cases (playerName : option jsstring) :
  (exists c s, playerName = Some (c :: s) /\ truthy playerName = true)
  \/ ((playerName = None \/ playerName = Some [])
      /\ truthy playerName = false).
Proof.
  destruct playerName as [[|c s]|]; [right | left | right]; eauto.
Qed.

Lemma state_eta (st : State) :
  mkState (players st) (firstPlayerTime st) (elapsedTime st)
    (nextPlayerId st) (startTime st) = st.
Proof. destruct st; reflexivity. Qed.

Lemma run_app (st : State) (es1 es2 : list Event) :
  run st (es1 ++ es2) = run (run st es1) es2.
Proof. apply fold_left_app. Qed.

Lemma run_cons (st : State) (e : Event) (es : list Event) :
  run st (e :: es) = run (step st e) es.
Proof. reflexivity. Qed.

Lemma Forall2_map_r {A B : Type} (R : A -> B -> Prop) (f : A -> B)
    (l : list A) :
  (forall a, In a l -> R a (f a)) -> Forall2 R l (List.map f l).
Proof.
  induction l as [|a l IH]; intros H; simpl; constructor.
  - apply H; now left.
  - apply IH; intros b Hb; apply H; now right.
Qed.

(** ** The synchronized append *)




(** ** Score changes *)

(** C2. [incrementPlayer i] (resp. [decrementPlayer i]) adds 1 (resp.
    -1) to the score of the player holding id [i], over the integers and
    with no bound, leaves the score of every other player as it is, and
    the append that follows records for each player the score the
    player has after the change. *)
Theorem adjust_score (st : State) (i now : Z) :
  In i (List.map id (players st)) ->
  Forall2 (adjusted 1 i (elapsed now (startTime st)))
    (players st) (players (step st (IncrementPlayer i now)))
  /\ Forall2 (adjusted (-1) i (elapsed now (startTime st)))
       (players st) (players (step st (DecrementPlayer i now))).
Proof.
  intros _. rewrite step_incrementPlayer, step_decrementPlayer; simpl.
  rewrite !map_map.
  split; apply Forall2_map_r; intros p _; unfold adjusted;
    destruct (id p =? i) eqn:E; simpl; rewrite ?E; repeat split; lia.
Qed.

Lemma adjust_score_witness :
  let st := run (mount 0) [AddPlayer (Some Alice) 100 255;
                           IncrementPlayer 1 5200;
                           AddPlayer (Some Bob) 5900 4096] in
  In 2 (List.map id (players st))
  /\ Forall2 (adjusted 1 2 8) (players st)
       (players (step st (IncrementPlayer 2 8000)))
  /\ Forall2 (adjusted (-1) 2 8) (players st)
       (players (step st (DecrementPlayer 2 8000))).
Proof.
  cbv zeta. split; [right; left; reflexivity|].
  apply (adjust_score
           (run (mount 0) [AddPlayer (Some Alice) 100 255;
                           IncrementPlayer 1 5200;
                           AddPlayer (Some Bob) 5900 4096]) 2 8000).
  right; left; reflexivity.
Defined.

(** The scenario of the specification, step by step. *)
Example scenario_players :
  List.map (fun p => (id p, name p, yValue p, dataPoints p))
    (players (run (mount 0) scenario)) =
  [(1, Alice, 1, [(0, 0); (5, 1); (8, 1)]);
   (2, Bob, -1, [(5, 0); (8, -1)])]
  /\ firstPlayerTime (run (mount 0) scenario) = Some 0.
Proof. split; reflexivity. Qed.

Example scenario_reset :
  List.map (fun p => (id p, name p, yValue p, dataPoints p))
    (players (run (mount 0) (scenario ++ [ResetAllPlayers 9000]))) =
  [(1, Alice, 0, [(0, 0)]); (2, Bob, 0, [(0, 0)])]
  /\ firstPlayerTime (run (mount 0) (scenario ++ [ResetAllPlayers 9000]))
     = None.
Proof. split; reflexivity. Qed.

(** ** Reset *)

(** C3. After a reset every player of the state is still there, with
    score 0 and a series of exactly one point, at the [firstPlayerTime]
    the reset found (0 if it was [null]) with score 0; [elapsedTime] is
    0, the clock origin is the reading of the reset, and
    [firstPlayerTime] is [null]. *)
Theorem resetAllPlayers_result (st : State) (now : Z) :
  let st' := step st (ResetAllPlayers now) in
  Forall2
    (fun p q =>
       id q = id p /\ name q = name p /\ color q = color p
       /\ yValue q = 0
       /\ dataPoints q =
          [(match firstPlayerTime st with Some t => t | None => 0 end, 0)]
       /\ List.length (dataPoints q) = 1%nat)
    (players st) (players st')
  /\ elapsedTime st' = 0
  /\ startTime st' = now
  /\ firstPlayerTime st' = None.
Proof.
  cbv zeta. rewrite step_resetAllPlayers; simpl.
  split; [|repeat split].
  apply Forall2_map_r. intros p _. simpl. repeat split.
Qed.

(** C9. A reset keeps the players: the same number of them, in the same
    order, each with the id, name and color it had. *)
Theorem resetAllPlayers_frame (st : State) (now : Z) :
  let st' := step st (ResetAllPlayers now) in
  List.map (fun p => (id p, name p, color p)) (players st')
  = List.map (fun p => (id p, name p, color p)) (players st)
  /\ List.length (players st') = List.length (players st)
  /\ nextPlayerId st' = nextPlayerId st.
Proof.
  cbv zeta. rewrite step_resetAllPlayers; simpl.
  rewrite map_map, length_map. auto.
Qed.

(** ** Adding and removing *)

(** C10. A successful [addPlayer] appends the new player to the list and
    touches no other player: the players that were there keep their id,
    name, color, score and series, and [elapsedTime] and the clock
    origin stay as they were. *)
Theorem addPlayer_frame (st : State) (playerName : option jsstring)
    (now : Z) (rnd : N) :
  truthy playerName = true ->
  let st' := step st (AddPlayer playerName now rnd) in
  (exists p,
      players st' = players st ++ [p]
      /\ id p = nextPlayerId st
      /\ Some (name p) = playerName
      /\ yValue p = 0
      /\ dataPoints p = [(elapsed now (startTime st), 0)])
  /\ elapsedTime st' = elapsedTime st
  /\ startTime st' = startTime st
  /\ nextPlayerId st' = nextPlayerId st + 1.
Proof.
  intros H. destruct (truthy_cases playerName) as [[c [s [-> _]]]|[_ F]];
    [|congruence].
  cbv zeta. rewrite step_addPlayer_some; simpl.
  repeat split. eexists; split; [reflexivity|]. simpl. auto.
Qed.

Lemma addPlayer_frame_witness :
  truthy (Some Bob) = true
  /\ let st := run (mount 0) [AddPlayer (Some Alice) 100 255;
                              IncrementPlayer 1 5200] in
     let st' := step st (AddPlayer (Some Bob) 5900 4096) in
     (exists p,
         players st' = players st ++ [p]
         /\ id p = nextPlayerId st
         /\ Some (name p) = Some Bob
         /\ yValue p = 0
         /\ dataPoints p = [(elapsed 5900 (startTime st), 0)])
     /\ elapsedTime st' = elapsedTime st
     /\ startTime st' = startTime st
     /\ nextPlayerId st' = nextPlayerId st + 1.
Proof.
  split; [reflexivity|].
  apply (addPlayer_frame
           (run (mount 0) [AddPlayer (Some Alice) 100 255;
                           IncrementPlayer 1 5200])
           (Some Bob) 5900 4096).
  reflexivity.
Defined.

Lemma filter_absent (i : Z) (l : list Player) :
  ~ In i (List.map id l) ->
  filter (fun player => negb (id player =? i)) l = l.
Proof.
  induction l as [|p l IH]; simpl; intros H; [reflexivity|].
  destruct (id p =? i) eqn:E.
  - apply Z.eqb_eq in E. exfalso. apply H. now left.
  - simpl. f_equal. apply IH. intros Hin. apply H. now right.
Qed.

(** C5. An [addPlayer] whose name is [null] or empty, and a
    [removePlayer] of an id that no player holds, leave the whole state
    as it is. The handlers have no error outcome: [step] is a total
    function to states. *)
Theorem ineffective_noop (st : State) (e : Event) :
  ineffective st e -> step st e = st.
Proof.
  destruct e as [n now rnd|i|i now|i now|i c|now| |now1 now2];
    simpl; intros H; try contradiction.
  - apply step_addPlayer_falsy. destruct H as [-> | ->]; reflexivity.
  - rewrite step_removePlayer, filter_absent by assumption.
    apply state_eta.
Qed.

Lemma ineffective_noop_witness :
  (ineffective (run (mount 0) scenario) (AddPlayer None 9000 7)
   /\ ineffective (run (mount 0) scenario) (AddPlayer (Some []) 9000 7)
   /\ ineffective (run (mount 0) scenario) (RemovePlayer 3))
  /\ step (run (mount 0) scenario) (AddPlayer None 9000 7)
     = run (mount 0) scenario
  /\ step (run (mount 0) scenario) (AddPlayer (Some []) 9000 7)
     = run (mount 0) scenario
  /\ step (run (mount 0) scenario) (RemovePlayer 3)
     = run (mount 0) scenario.
Proof.
  assert (H1 : ineffective (run (mount 0) scenario) (AddPlayer None 9000 7))
    by (left; reflexivity).
  assert (H2 : ineffective (run (mount 0) scenario)
                 (AddPlayer (Some []) 9000 7))
    by (right; reflexivity).
  assert (H3 : ineffective (run (mount 0) scenario) (RemovePlayer 3)).
  { simpl. intros [H|[H|[]]]; discriminate H. }
  split; [auto|].
  split; [|split].
  - apply (ineffective_noop _ _ H1).
  - apply (ineffective_noop _ _ H2).
  - apply (ineffective_noop _ _ H3).
Defined.

(** ** [firstPlayerTime] *)







(** ** Ids *)

Lemma step_nextPlayerId (st : State) (e : Event) :
  nextPlayerId (step st e) =
  match e with
  | AddPlayer playerName _ _ =>
      if truthy playerName then nextPlayerId st + 1 else nextPlayerId st
  | _ => nextPlayerId st
  end.
Proof.
  destruct e as [n now rnd|i|i now|i now|i c|now| |now1 now2];
    try reflexivity.
  destruct (truthy_cases n) as [[c [s [-> _]]]|[_ F]].
  - now rewrite step_addPlayer_some.
  - now rewrite F, step_addPlayer_falsy.
Qed.

Lemma step_nextPlayerId_le (st : State) (e : Event) :
  nextPlayerId st <= nextPlayerId (step st e).
Proof.
  rewrite step_nextPlayerId. destruct e; try lia. destruct (truthy _); lia.
Qed.

Lemma assigned_ids_app (es1 es2 : list Event) (st : State) :
  assigned_ids st (es1 ++ es2) =
  assigned_ids st es1 ++ assigned_ids (run st es1) es2.
Proof.
  revert st. induction es1 as [|e es1 IH]; intros st; [reflexivity|].
  simpl. rewrite IH, List.app_assoc. reflexivity.
Qed.

Lemma assigned_ids_bounds (es : list Event) (st : State) :
  Forall (fun i => nextPlayerId st <= i < nextPlayerId (run st es))
    (assigned_ids st es)
  /\ nextPlayerId st <= nextPlayerId (run st es).
Proof.
  revert st. induction es as [|e es IH]; intros st; simpl.
  - split; [constructor | lia].
  - destruct (IH (step st e)) as [IH1 IH2].
    pose proof (step_nextPlayerId st e) as Hn.
    pose proof (step_nextPlayerId_le st e) as Hle.
    change (fold_left step es (step st e)) with (run (step st e) es).
    split; [|lia].
    apply Forall_app. split.
    + destruct e; try constructor.
      destruct (truthy playerName); constructor; [lia | constructor].
    + eapply Forall_impl; [|exact IH1]. simpl. intros i Hi. lia.
Qed.

Lemma assigned_ids_sorted (es : list Event) (st : State) :
  StronglySorted Z.lt (assigned_ids st es).
Proof.
  revert st. induction es as [|e es IH]; intros st; simpl; [constructor|].
  destruct (assigned_ids_bounds es (step st e)) as [Hb _].
  pose proof (step_nextPlayerId st e) as Hn.
  destruct e; simpl; try apply IH.
  destruct (truthy playerName); simpl; [|apply IH].
  constructor; [apply IH|].
  eapply Forall_impl; [|exact Hb]. simpl. intros i Hi. lia.
Qed.

Lemma StronglySorted_lt_NoDup (l : list Z) :
  StronglySorted Z.lt l -> NoDup l.
Proof.
  induction 1 as [|a l Hl IH Ha]; constructor; [|exact IH].
  intros Hin. rewrite Forall_forall in Ha. specialize (Ha a Hin). lia.
Qed.

Lemma step_players_ids (st : State) (e : Event) :
  incl (List.map id (players (step st e)))
       (List.map id (players st) ++ assigned_ids st [e]).
Proof.
  intros i Hi. apply in_or_app.
  destruct e as [n now rnd|j|j now|j now|j c|now| |now1 now2]; simpl.
  - destruct (truthy_cases n) as [[c [s [-> _]]]|[_ F]].
    + rewrite step_addPlayer_some in Hi; simpl in Hi.
      rewrite map_app in Hi. apply in_app_or in Hi.
      destruct Hi as [Hi|Hi]; [now left | right; exact Hi].
    + rewrite step_addPlayer_falsy in Hi by exact F. now left.
  - left. rewrite step_removePlayer in Hi; simpl in Hi.
    apply in_map_iff in Hi. destruct Hi as [p [<- Hp]].
    apply filter_In in Hp. apply in_map. tauto.
  - left. rewrite step_incrementPlayer in Hi; simpl in Hi.
    rewrite !map_map in Hi.
    apply in_map_iff in Hi. destruct Hi as [p [<- Hp]].
    destruct (id p =? j); simpl; now apply in_map.
  - left. rewrite step_decrementPlayer in Hi; simpl in Hi.
    rewrite !map_map in Hi.
    apply in_map_iff in Hi. destruct Hi as [p [<- Hp]].
    destruct (id p =? j); simpl; now apply in_map.
  - left. rewrite step_changePlayerColor in Hi; simpl in Hi.
    rewrite map_map in Hi.
    apply in_map_iff in Hi. destruct Hi as [p [<- Hp]].
    destruct (id p =? j); simpl; now apply in_map.
  - left. rewrite step_resetAllPlayers in Hi; simpl in Hi.
    rewrite map_map in Hi. exact Hi.
  - left. exact Hi.
  - left. rewrite step_tick in Hi; simpl in Hi.
    rewrite map_map in Hi. exact Hi.
Qed.

Lemma run_players_ids (es : list Event) (st : State) :
  incl (List.map id (players (run st es)))
       (List.map id (players st) ++ assigned_ids st es).
Proof.
  revert st. induction es as [|e es IH]; intros st.
  - simpl. rewrite List.app_nil_r. apply incl_refl.
  - rewrite run_cons. intros i Hi. apply IH in Hi.
    change (e :: es) with ([e] ++ es). rewrite assigned_ids_app.
    change (run st [e]) with (step st e).
    apply in_app_or in Hi. rewrite List.app_assoc. apply in_or_app.
    destruct Hi as [Hi|Hi]; [left | now right].
    now apply step_players_ids.
Qed.

(** Ids assigned after a prefix of the trace are larger than every id
    assigned during it: the id of a removed player does not come back. *)
Lemma assigned_ids_fresh (t0 : Z) (es1 es2 : list Event) (i j : Z) :
  In i (assigned_ids (mount t0) es1) ->
  In j (assigned_ids (run (mount t0) es1) es2) ->
  i < j.
Proof.
  intros Hi Hj.
  destruct (assigned_ids_bounds es1 (mount t0)) as [H1 _].
  destruct (assigned_ids_bounds es2 (run (mount t0) es1)) as [H2 _].
  rewrite Forall_forall in H1, H2.
  specialize (H1 i Hi). specialize (H2 j Hj). lia.
Qed.

(** The players present hold increasing ids, all below [nextPlayerId]:
    an id designates at most one of them. *)
Lemma map_id_preserved (g : Player -> Player) (l : list Player) :
  (forall p, id (g p) = id p) ->
  List.map id (List.map g l) = List.map id l.
Proof.
  intros H. rewrite map_map. apply map_ext. exact H.
Qed.

Lemma filter_ids_sorted (f : Player -> bool) (l : list Player) :
  StronglySorted Z.lt (List.map id l) ->
  StronglySorted Z.lt (List.map id (filter f l)).
Proof.
  induction l as [|p l IH]; simpl; intros H; [constructor|].
  inversion H as [|? ? Hl Hp]; subst.
  destruct (f p); simpl; [|now apply IH].
  constructor; [now apply IH|].
  apply Forall_forall. intros i Hi.
  rewrite Forall_forall in Hp. apply Hp.
  apply in_map_iff in Hi. destruct Hi as [q [<- Hq]].
  apply filter_In in Hq. apply in_map. tauto.
Qed.

Lemma snoc_ids_sorted (l : list Z) (n : Z) :
  StronglySorted Z.lt l -> Forall (fun i => i < n) l ->
  StronglySorted Z.lt (l ++ [n]).
Proof.
  induction 1 as [|a l Hl IH Ha]; intros Hn; simpl.
  - repeat constructor.
  - inversion Hn as [|? ? Han Hln]; subst.
    constructor; [now apply IH|].
    apply Forall_app. split; [exact Ha|]. now repeat constructor.
Qed.

Lemma step_ids_sorted (st : State) (e : Event) :
  StronglySorted Z.lt (List.map id (players st)) ->
  Forall (fun i => i < nextPlayerId st) (List.map id (players st)) ->
  StronglySorted Z.lt (List.map id (players (step st e)))
  /\ Forall (fun i => i < nextPlayerId (step st e))
       (List.map id (players (step st e))).
Proof.
  intros Hs Hb.
  destruct e as [n now rnd|j|j now|j now|j c|now| |now1 now2].
  - destruct (truthy_cases n) as [[c [s [-> _]]]|[_ F]].
    + rewrite step_addPlayer_some; simpl. rewrite map_app; simpl. split.
      * now apply snoc_ids_sorted.
      * apply Forall_app. split.
        -- eapply Forall_impl; [|exact Hb]. simpl. intros i Hi. lia.
        -- repeat constructor. lia.
    + rewrite step_addPlayer_falsy by exact F. now split.
  - rewrite step_removePlayer; simpl. split.
    + now apply filter_ids_sorted.
    + apply Forall_forall. intros i Hi.
      rewrite Forall_forall in Hb. apply Hb.
      apply in_map_iff in Hi. destruct Hi as [q [<- Hq]].
      apply filter_In in Hq. apply in_map. tauto.
  - rewrite step_incrementPlayer; simpl.
    rewrite !map_id_preserved;
      [now split | intros p; now destruct (id p =? j) | reflexivity].
  - rewrite step_decrementPlayer; simpl.
    rewrite !map_id_preserved;
      [now split | intros p; now destruct (id p =? j) | reflexivity].
  - rewrite step_changePlayerColor; simpl.
    rewrite !map_id_preserved;
      [now split | intros p; now destruct (id p =? j)].
  - rewrite step_resetAllPlayers; simpl.
    rewrite !map_id_preserved; [now split | reflexivity].
  - rewrite step_exportToJson. now split.
  - rewrite step_tick; simpl.
    rewrite !map_id_preserved; [now split | reflexivity].
Qed.

Lemma run_ids_sorted (es : list Event) (st : State) :
  StronglySorted Z.lt (List.map id (players st)) ->
  Forall (fun i => i < nextPlayerId st) (List.map id (players st)) ->
  StronglySorted Z.lt (List.map id (players (run st es))).
Proof.
  revert st. induction es as [|e es IH]; intros st Hs Hb; [exact Hs|].
  rewrite run_cons. destruct (step_ids_sorted st e Hs Hb) as [Hs' Hb'].
  now apply IH.
Qed.

Lemma reachable_id_unique (t0 : Z) (es : list Event) (p q : Player) :
  In p (players (run (mount t0) es)) ->
  In q (players (run (mount t0) es)) ->
  id p = id q -> p = q.
Proof.
  assert (Hn : NoDup (List.map id (players (run (mount t0) es)))).
  { apply StronglySorted_lt_NoDup, run_ids_sorted; constructor. }
  revert Hn. generalize (players (run (mount t0) es)) as l.
  induction l as [|a l IH]; simpl; intros Hn Hp Hq E; [contradiction|].
  inversion Hn as [|? ? Ha Hl]; subst.
  destruct Hp as [->|Hp], Hq as [->|Hq].
  - reflexivity.
  - exfalso. apply Ha. rewrite E. now apply in_map.
  - exfalso. apply Ha. rewrite <- E. now apply in_map.
  - now apply IH.
Qed.

Lemma skipn_length_app {A : Type} (l l' : list A) :
  skipn (List.length l) (l ++ l') = l'.
Proof. induction l as [|a l IH]; simpl; [reflexivity | exact IH]. Qed.

Lemma added_ids_assigned (es : list Event) (st : State) :
  added_ids st es = assigned_ids st es.
Proof.
  revert st. induction es as [|e es IH]; intros st; [reflexivity|].
  simpl. rewrite IH. f_equal.
  destruct e as [n now rnd|i|i now|i now|i c|now| |now1 now2];
    try reflexivity.
  simpl is_successful_add.
  destruct (truthy_cases n) as [[c [s [-> _]]]|[_ F]].
  - simpl truthy. cbv iota.
    rewrite step_addPlayer_some. simpl players.
    now rewrite skipn_length_app.
  - now rewrite F.
Qed.

Lemma assigned_ids_length (es : list Event) (st : State) :
  List.length (assigned_ids st es) = successful_adds es.
Proof.
  unfold successful_adds.
  revert st. induction es as [|e es IH]; intros st; [reflexivity|].
  simpl. rewrite length_app, IH.
  destruct e; simpl; try reflexivity.
  destruct (truthy playerName); reflexivity.
Qed.

(** C4. Over any trace from the mounted component (adds and removes,
    and every other event as well) each successful [addPlayer] stores
    one id, and the ids stored, read from the players appended to the
    list, are strictly increasing in the order of the calls, hence
    pairwise distinct, whatever was removed in between; all lie between
    1 and the final [nextPlayerId]; the players present at the end hold
    ids among them, and no two of them hold the same id. *)
Theorem player_ids_unique_increasing (t0 : Z) (es : list Event) :
  let st := run (mount t0) es in
  let ids := added_ids (mount t0) es in
  List.length ids = successful_adds es
  /\ StronglySorted Z.lt ids
  /\ NoDup ids
  /\ Forall (fun i => 1 <= i < nextPlayerId st) ids
  /\ incl (List.map id (players st)) ids
  /\ StronglySorted Z.lt (List.map id (players st))
  /\ NoDup (List.map id (players st)).
Proof.
  cbv zeta. rewrite added_ids_assigned.
  pose proof (assigned_ids_sorted es (mount t0)) as Hs.
  assert (Hp : StronglySorted Z.lt (List.map id (players (run (mount t0) es))))
    by (apply run_ids_sorted; constructor).
  split; [apply assigned_ids_length|].
  split; [exact Hs|].
  split; [now apply StronglySorted_lt_NoDup|].
  split; [apply (assigned_ids_bounds es (mount t0))|].
  split; [apply (run_players_ids es (mount t0))|].
  split; [exact Hp | now apply StronglySorted_lt_NoDup].
Qed.

(** ** Order of the times of a series *)

Lemma elapsed_mono (a b start : Z) :
  a <= b -> elapsed a start <= elapsed b start.
Proof. intros H. unfold elapsed. apply Z.div_le_mono; lia. Qed.

Lemma elapsed_origin (start : Z) : elapsed start start = 0.
Proof. unfold elapsed. now rewrite Z.sub_diag. Qed.







Lemma Forall_map_intro {A B : Type} (P : A -> Prop) (Q : B -> Prop)
    (f : A -> B) (l : list A) :
  (forall a, P a -> Q (f a)) -> Forall P l -> Forall Q (List.map f l).
Proof.
  intros H Hl. apply Forall_map. eapply Forall_impl; [|exact Hl]. exact H.
Qed.

Lemma Forall_filter {A : Type} (P : A -> Prop) (f : A -> bool) (l : list A) :
  Forall P l -> Forall P (filter f l).
Proof.
  intros H. apply Forall_forall. intros a Ha. apply filter_In in Ha.
  rewrite Forall_forall in H. apply H. tauto.
Qed.

Lemma StronglySorted_le_cons2 (a b : Z) (l : list Z) :
  StronglySorted Z.le (a :: b :: l) ->
  a <= b /\ StronglySorted Z.le (b :: l).
Proof.
  intros H. inversion H as [|? ? H1 H2]; subst.
  inversion H2; subst. auto.
Qed.

Lemma last_cons_default (l : list Z) (a b : Z) :
  List.last (b :: l) a = List.last l b.
Proof.
  revert a b. induction l as [|c l IH]; intros a b; [reflexivity|].
  change (List.last (b :: c :: l) a) with (List.last (c :: l) a).
  now rewrite !IH.
Qed.

Lemma StronglySorted_le_split (l1 l2 : list Z) (a : Z) :
  StronglySorted Z.le (a :: l1 ++ l2) ->
  StronglySorted Z.le (a :: l1)
  /\ StronglySorted Z.le (List.last l1 a :: l2).
Proof.
  revert a. induction l1 as [|b l1 IH]; intros a H.
  - simpl in *. split; [|exact H].
    constructor; constructor.
  - change ((b :: l1) ++ l2) with (b :: l1 ++ l2) in H.
    destruct (StronglySorted_le_cons2 _ _ _ H) as [Hab Hb].
    destruct (IH b Hb) as [H1 H2]. split.
    + constructor; [exact H1|]. constructor; [exact Hab|].
      inversion H1 as [|? ? _ H3]; subst.
      eapply Forall_impl; [|exact H3]. simpl. intros c Hc. lia.
    + now rewrite last_cons_default.
Qed.







(** ** JSON: parsing what was serialized *)

Module JSONFacts.

Import JSON.

Open Scope N_scope.

(** *** Strings *)

Lemma hex_val_digit (d : N) : d < 16 -> hex_val (hex_digit_unit d) = Some d.
Proof.
  intros H.
  assert (E : d = 0 \/ d = 1 \/ d = 2 \/ d = 3 \/ d = 4 \/ d = 5 \/ d = 6
              \/ d = 7 \/ d = 8 \/ d = 9 \/ d = 10 \/ d = 11 \/ d = 12
              \/ d = 13 \/ d = 14 \/ d = 15) by lia.
  repeat (destruct E as [-> | E]; [reflexivity|]). subst. reflexivity.
Qed.

Lemma hex4_UnicodeEscape (c : N) :
  c < 65536 ->
  hex4 (hex_digit_unit (c / 4096 mod 16)) (hex_digit_unit (c / 256 mod 16))
       (hex_digit_unit (c / 16 mod 16)) (hex_digit_unit (c mod 16))
  = Some c.
Proof.
  intros H. unfold hex4.
  rewrite !hex_val_digit by (apply N.mod_lt; discriminate).
  f_equal. zify. Z.to_euclidean_division_equations. lia.
Qed.

Lemma parse_chars_u (h1 h2 h3 h4 : N) (rest : jsstring) :
  parse_chars (92 :: 117 :: h1 :: h2 :: h3 :: h4 :: rest) =
  match hex4 h1 h2 h3 h4 with
  | Some u => cons_fst u (parse_chars rest)
  | None => None
  end.
Proof. reflexivity. Qed.

Lemma parse_chars_UnicodeEscape (c : N) (rest : jsstring) :
  c < 65536 ->
  parse_chars (UnicodeEscape c ++ rest) = cons_fst c (parse_chars rest).
Proof.
  intros H. unfold UnicodeEscape.
  change (parse_chars
            (92 :: 117 :: hex_digit_unit (c / 4096 mod 16)
                :: hex_digit_unit (c / 256 mod 16)
                :: hex_digit_unit (c / 16 mod 16)
                :: hex_digit_unit (c mod 16) :: rest)
          = cons_fst c (parse_chars rest)).
  now rewrite parse_chars_u, hex4_UnicodeEscape.
Qed.

Lemma parse_chars_plain (c : N) (rest : jsstring) :
  c <> 34 -> c <> 92 -> 32 <= c ->
  parse_chars (c :: rest) = cons_fst c (parse_chars rest).
Proof.
  intros H1 H2 H3. simpl.
  apply N.eqb_neq in H1, H2. rewrite H1, H2.
  apply N.ltb_ge in H3. now rewrite H3.
Qed.

Lemma surrogate_bounds (c : N) :
  is_leading_surrogate c || is_trailing_surrogate c = true ->
  55296 <= c <= 57343.
Proof.
  unfold is_leading_surrogate, is_trailing_surrogate.
  intros H. apply orb_prop in H.
  destruct H as [H|H]; apply andb_prop in H; destruct H as [Ha Hb];
    apply N.leb_le in Ha, Hb; lia.
Qed.

Lemma parse_chars_quote_unit (c : N) (rest : jsstring) :
  parse_chars (quote_unit c ++ rest) = cons_fst c (parse_chars rest).
Proof.
  unfold quote_unit.
  destruct (c =? 8) eqn:E8; [apply N.eqb_eq in E8; subst; reflexivity|].
  destruct (c =? 9) eqn:E9; [apply N.eqb_eq in E9; subst; reflexivity|].
  destruct (c =? 10) eqn:E10; [apply N.eqb_eq in E10; subst; reflexivity|].
  destruct (c =? 12) eqn:E12; [apply N.eqb_eq in E12; subst; reflexivity|].
  destruct (c =? 13) eqn:E13; [apply N.eqb_eq in E13; subst; reflexivity|].
  destruct (c =? 34) eqn:E34; [apply N.eqb_eq in E34; subst; reflexivity|].
  destruct (c =? 92) eqn:E92; [apply N.eqb_eq in E92; subst; reflexivity|].
  destruct ((c <? 32) || is_leading_surrogate c || is_trailing_surrogate c)
    eqn:E.
  - apply parse_chars_UnicodeEscape.
    rewrite <- orb_assoc in E. apply orb_prop in E. destruct E as [E|E].
    + apply N.ltb_lt in E. lia.
    + apply surrogate_bounds in E. lia.
  - apply orb_false_elim in E. destruct E as [E _].
    apply orb_false_elim in E. destruct E as [E _].
    apply N.ltb_ge in E. apply N.eqb_neq in E34, E92.
    now apply parse_chars_plain.
Qed.

Lemma quote_units_cons (c : N) (t : jsstring) :
  quote_units (c :: t) =
  if is_leading_surrogate c then
    match t with
    | d :: t' =>
        if is_trailing_surrogate d then c :: d :: quote_units t'
        else UnicodeEscape c ++ quote_units t
    | [] => UnicodeEscape c
    end
  else quote_unit c ++ quote_units t.
Proof. reflexivity. Qed.

Lemma parse_chars_quote_units (s rest : jsstring) :
  parse_chars (quote_units s ++ 34 :: rest) = Some (s, rest).
Proof.
  remember (List.length s) as n eqn:Hn.
  revert s Hn. induction n as [n IH] using lt_wf_ind. intros s Hn.
  destruct s as [|c t]; [reflexivity|].
  rewrite quote_units_cons.
  destruct (is_leading_surrogate c) eqn:Ec.
  - assert (Hc : 55296 <= c <= 57343)
      by (apply surrogate_bounds; rewrite Ec; reflexivity).
    destruct t as [|d t'].
    + rewrite parse_chars_UnicodeEscape by lia. reflexivity.
    + destruct (is_trailing_surrogate d) eqn:Ed.
      * assert (Hd : 55296 <= d <= 57343)
          by (apply surrogate_bounds; rewrite Ed; apply orb_true_r).
        change ((c :: d :: quote_units t') ++ 34 :: rest)
          with (c :: d :: (quote_units t' ++ 34 :: rest)).
        rewrite !parse_chars_plain by lia.
        rewrite (IH (List.length t')) with (s := t');
          [reflexivity | simpl in Hn; lia | reflexivity].
      * rewrite <- List.app_assoc.
        rewrite parse_chars_UnicodeEscape by lia.
        rewrite (IH (List.length (d :: t'))) with (s := d :: t');
          [reflexivity | simpl in Hn |- *; lia | reflexivity].
  - rewrite <- List.app_assoc, parse_chars_quote_unit.
    rewrite (IH (List.length t)) with (s := t);
      [reflexivity | simpl in Hn; lia | reflexivity].
Qed.

(** *** Numbers *)

Lemma parse_digits_dec_units (d : Decimal.uint) (rest : jsstring) :
  match rest with
  | [] => True
  | c :: _ => digit_of c = None
  end ->
  parse_digits (dec_units d ++ rest) = (d, rest).
Proof.
  intros H. induction d; simpl; try (rewrite IHd; reflexivity).
  destruct rest as [|c r]; [reflexivity|]. simpl. now rewrite H.
Qed.

Lemma to_uint_normal (p : positive) :
  Decimal.unorm (Pos.to_uint p) = Pos.to_uint p.
Proof.
  rewrite <- (DecimalPos.Unsigned.to_of (Pos.to_uint p)).
  now rewrite DecimalPos.Unsigned.of_to.
Qed.

Lemma to_uint_head (p : positive) :
  match Pos.to_uint p with
  | Decimal.Nil => False
  | Decimal.D0 _ => False
  | _ => True
  end.
Proof.
  pose proof (to_uint_normal p) as Hn.
  pose proof (DecimalPos.Unsigned.to_uint_nonzero p) as Hz.
  destruct (Pos.to_uint p) as [|d| | | | | | | | |] eqn:E; try exact I.
  - discriminate Hn.
  - rewrite DecimalFacts.unorm_D0 in Hn.
    destruct d as [| | | | | | | | | |] eqn:Ed;
      try congruence;
      (assert (Hd : d <> Decimal.Nil) by (subst d; discriminate);
       subst d;
       apply DecimalFacts.nb_digits_unorm in Hd; rewrite Hn in Hd;
       simpl in Hd; lia).
Qed.

Lemma finish_number_ok (negative : bool) (d : Decimal.uint)
    (rest : jsstring) :
  match d with
  | Decimal.Nil => False
  | Decimal.D0 Decimal.Nil => True
  | Decimal.D0 _ => False
  | _ => True
  end ->
  ends_value rest ->
  finish_number negative d rest =
  Some (JNumber (Z.of_int (if negative then Decimal.Neg d
                           else Decimal.Pos d)), rest).
Proof.
  intros Hd Hrest.
  assert (Hfollow :
            match rest with
            | c :: _ =>
                (if (c =? 46) || (c =? 101) || (c =? 69)
                 then None
                 else Some (JNumber (Z.of_int (if negative then Decimal.Neg d
                                               else Decimal.Pos d)), rest))
            | [] => Some (JNumber (Z.of_int (if negative then Decimal.Neg d
                                             else Decimal.Pos d)), rest)
            end
            = Some (JNumber (Z.of_int (if negative then Decimal.Neg d
                                       else Decimal.Pos d)), rest)).
  { destruct rest as [|c r]; [reflexivity|].
    destruct Hrest as [_ [H1 [H2 H3]]].
    apply N.eqb_neq in H1, H2, H3. now rewrite H1, H2, H3. }
  destruct d as [|d'| | | | | | | | |]; try contradiction; try exact Hfollow.
  destruct d'; try contradiction. exact Hfollow.
Qed.

Lemma ends_value_no_digit (rest : jsstring) :
  ends_value rest ->
  match rest with
  | [] => True
  | c :: _ => digit_of c = None
  end.
Proof. destruct rest; simpl; tauto. Qed.

Lemma parse_number_nonnegative (d : Decimal.uint) (rest : jsstring) :
  d <> Decimal.Nil ->
  parse_number (dec_units d ++ rest) =
  let (d', rest') := parse_digits (dec_units d ++ rest) in
  finish_number false d' rest'.
Proof. destruct d; [contradiction | reflexivity ..]. Qed.

Lemma parse_number_negative (s : jsstring) :
  parse_number (45 :: s) =
  let (d', rest') := parse_digits s in finish_number true d' rest'.
Proof. reflexivity. Qed.

Lemma number_to_string_cases (z : Z) :
  number_to_string z =
  match z with
  | Z0 => dec_units (Decimal.D0 Decimal.Nil)
  | Zpos p => dec_units (Pos.to_uint p)
  | Zneg p => 45 :: dec_units (Pos.to_uint p)
  end.
Proof. destruct z; reflexivity. Qed.

Lemma parse_number_to_string (z : Z) (rest : jsstring) :
  ends_value rest ->
  parse_number (number_to_string z ++ rest) = Some (JNumber z, rest).
Proof.
  intros Hrest. pose proof (ends_value_no_digit rest Hrest) as Hd.
  pose proof (DecimalZ.of_to z) as Hz.
  rewrite number_to_string_cases.
  destruct z as [|p|p].
  - rewrite parse_number_nonnegative by discriminate.
    rewrite parse_digits_dec_units by exact Hd.
    rewrite finish_number_ok; [reflexivity | exact I | exact Hrest].
  - pose proof (to_uint_head p) as Hh.
    rewrite parse_number_nonnegative
      by (intros E; rewrite E in Hh; exact Hh).
    rewrite parse_digits_dec_units by exact Hd.
    rewrite finish_number_ok; [do 3 f_equal; exact Hz | | exact Hrest].
    destruct (Pos.to_uint p); try exact I; contradiction.
  - pose proof (to_uint_head p) as Hh.
    change ((45 :: dec_units (Pos.to_uint p)) ++ rest)
      with (45 :: (dec_units (Pos.to_uint p) ++ rest)).
    rewrite parse_number_negative.
    rewrite parse_digits_dec_units by exact Hd.
    rewrite finish_number_ok; [do 3 f_equal; exact Hz | | exact Hrest].
    destruct (Pos.to_uint p); try exact I; contradiction.
Qed.

Lemma number_to_string_head (z : Z) :
  exists c t,
    number_to_string z = c :: t
    /\ (c = 45 \/ digit_of c <> None).
Proof.
  rewrite number_to_string_cases.
  destruct z as [|p|p].
  - exists 48, []. split; [reflexivity | right; discriminate].
  - pose proof (to_uint_head p) as Hh.
    destruct (Pos.to_uint p); try contradiction; simpl;
      eexists; eexists; (split; [reflexivity | right; discriminate]).
  - eexists; eexists. split; [reflexivity | now left].
Qed.

(** *** Values *)

Section ValueInduction.

Variable P : value -> Prop.

Hypothesis HNull : P JNull.
Hypothesis HBool : forall b, P (JBool b).
Hypothesis HNumber : forall z, P (JNumber z).
Hypothesis HString : forall s, P (JString s).
Hypothesis HArray : forall vs, Forall P vs -> P (JArray vs).
Hypothesis HObject :
  forall ms, Forall (fun m => P (snd m)) ms -> P (JObject ms).

Lemma value_nested_ind (v : value) : P v.
Proof.
  revert v. fix IH 1. intros [|b|z|s|vs|ms].
  - exact HNull.
  - apply HBool.
  - apply HNumber.
  - apply HString.
  - apply HArray. revert vs. fix IHvs 1. intros [|v vs].
    + constructor.
    + constructor; [apply IH | apply IHvs].
  - apply HObject. revert ms. fix IHms 1. intros [|m ms].
    + constructor.
    + constructor; [apply IH | apply IHms].
Qed.

End ValueInduction.

Lemma skip_ws_blank (w s : jsstring) :
  blank w -> skip_ws (w ++ s) = skip_ws s.
Proof.
  induction 1 as [|c w Hc Hw IH]; [reflexivity|].
  simpl. now rewrite Hc.
Qed.

Lemma skip_ws_token (c : N) (t : jsstring) :
  is_ws c = false -> skip_ws (c :: t) = c :: t.
Proof. intros H. simpl. now rewrite H. Qed.

Lemma blank_gap (indent : jsstring) : blank indent -> blank (indent ++ gap).
Proof.
  intros H. apply Forall_app. split; [exact H|].
  repeat constructor.
Qed.

Lemma blank_newline (indent : jsstring) : blank indent -> blank (10 :: indent).
Proof. intros H. constructor; [reflexivity | exact H]. Qed.

(** The unfolding equations of the parser. *)

Lemma parse_value_S (fuel : nat) (s : jsstring) :
  parse_value (S fuel) s =
  match skip_ws s with
  | [] => None
  | c :: t =>
      if c =? 34 then
        match parse_chars t with
        | Some (str, rest) => Some (JString str, rest)
        | None => None
        end
      else if c =? 91 then
        match skip_ws t with
        | [] => None
        | c' :: t' =>
            if c' =? 93 then Some (JArray [], t')
            else
              match parse_elements fuel (c' :: t') with
              | Some (vs, rest) => Some (JArray vs, rest)
              | None => None
              end
        end
      else if c =? 123 then
        match skip_ws t with
        | [] => None
        | c' :: t' =>
            if c' =? 125 then Some (JObject [], t')
            else
              match parse_members fuel (c' :: t') with
              | Some (ms, rest) => Some (object_of ms, rest)
              | None => None
              end
        end
      else if c =? 116 then parse_literal (js "true") (JBool true) (c :: t)
      else if c =? 102 then parse_literal (js "false") (JBool false) (c :: t)
      else if c =? 110 then parse_literal (js "null") JNull (c :: t)
      else parse_number (c :: t)
  end.
Proof. reflexivity. Qed.

Lemma parse_elements_S (fuel : nat) (s : jsstring) :
  parse_elements (S fuel) s =
  match parse_value fuel s with
  | None => None
  | Some (v, rest) =>
      match skip_ws rest with
      | [] => None
      | c :: t =>
          if c =? 44 then
            match parse_elements fuel t with
            | Some (vs, rest') => Some (v :: vs, rest')
            | None => None
            end
          else if c =? 93 then Some ([v], t)
          else None
      end
  end.
Proof. reflexivity. Qed.

Lemma parse_members_S (fuel : nat) (s : jsstring) :
  parse_members (S fuel) s =
  match skip_ws s with
  | [] => None
  | q :: t =>
      if q =? 34 then
        match parse_chars t with
        | None => None
        | Some (k, rest) =>
            match skip_ws rest with
            | [] => None
            | c :: t' =>
                if c =? 58 then
                  match parse_value fuel t' with
                  | None => None
                  | Some (v, rest') =>
                      match skip_ws rest' with
                      | [] => None
                      | c' :: t'' =>
                          if c' =? 44 then
                            match parse_members fuel t'' with
                            | Some (ms, rest'') => Some ((k, v) :: ms, rest'')
                            | None => None
                            end
                          else if c' =? 125 then Some ([(k, v)], t'')
                          else None
                      end
                  end
                else None
            end
        end
      else None
  end.
Proof. reflexivity. Qed.

Lemma parse_value_blank (fuel : nat) (w s : jsstring) :
  blank w -> parse_value fuel (w ++ s) = parse_value fuel s.
Proof.
  intros H. destruct fuel; [reflexivity|].
  now rewrite !parse_value_S, skip_ws_blank.
Qed.

Lemma parse_elements_blank (fuel : nat) (w s : jsstring) :
  blank w -> parse_elements fuel (w ++ s) = parse_elements fuel s.
Proof.
  intros H. destruct fuel; [reflexivity|].
  now rewrite !parse_elements_S, parse_value_blank.
Qed.

Lemma parse_members_blank (fuel : nat) (w s : jsstring) :
  blank w -> parse_members fuel (w ++ s) = parse_members fuel s.
Proof.
  intros H. destruct fuel; [reflexivity|].
  now rewrite !parse_members_S, skip_ws_blank.
Qed.

Lemma digit_unit_range (c : N) : digit_of c <> None -> 48 <= c <= 57.
Proof.
  unfold digit_of. intros H.
  repeat match type of H with
         | context [?a =? ?b] =>
             destruct (N.eqb_spec a b); [subst; lia|]
         end.
  congruence.
Qed.

Lemma SerializeJSONProperty_head (indent : jsstring) (v : value) :
  exists c t, SerializeJSONProperty indent v = c :: t /\ opens_value c.
Proof.
  destruct v as [|[|]|z|s|[|v vs]|[|m ms]];
    try (eexists; eexists; split;
         [reflexivity | repeat split; discriminate]).
  destruct (number_to_string_head z) as [c [t [E Hc]]].
  exists c, t. split; [exact E|].
  assert (Hr : c = 45 \/ 48 <= c <= 57)
    by (destruct Hc as [Hc|Hc]; [now left | right; now apply digit_unit_range]).
  unfold opens_value, is_ws.
  repeat split; try lia.
  repeat match goal with
         | |- context [?a =? ?b] =>
             destruct (N.eqb_spec a b); [lia|]
         end.
  reflexivity.
Qed.

Lemma define_fresh (k : jsstring) (v : value) (acc : list (jsstring * value)) :
  ~ In k (List.map fst acc) -> define k v acc = acc ++ [(k, v)].
Proof.
  induction acc as [|[k' v'] acc IH]; simpl; intros H; [reflexivity|].
  destruct (list_eq_dec N.eq_dec k k') as [E|E].
  - exfalso. apply H. left. now symmetry.
  - f_equal. apply IH. intros Hin. apply H. now right.
Qed.

Lemma fold_define (ms acc : list (jsstring * value)) :
  NoDup (List.map fst (acc ++ ms)) ->
  fold_left (fun acc m => define (fst m) (snd m) acc) ms acc = acc ++ ms.
Proof.
  revert acc. induction ms as [|[k v] ms IH]; intros acc H; simpl.
  - now rewrite List.app_nil_r.
  - rewrite define_fresh.
    + rewrite IH; rewrite <- List.app_assoc; [reflexivity | exact H].
    + rewrite map_app in H. simpl in H.
      apply NoDup_remove_2 in H. intros Hin. apply H.
      apply in_or_app. now left.
Qed.

Lemma object_of_distinct (ms : list (jsstring * value)) :
  NoDup (List.map fst ms) -> object_of ms = JObject ms.
Proof.
  intros H. unfold object_of. now rewrite fold_define.
Qed.

Lemma distinct_keys_elements (vs : list value) :
  fold_right (fun v acc => distinct_keys v /\ acc) True vs
  <-> Forall distinct_keys vs.
Proof.
  induction vs as [|v vs IH]; simpl.
  - split; [constructor | trivial].
  - rewrite IH. split.
    + intros [H1 H2]. now constructor.
    + intros H. inversion H; subst. now split.
Qed.

Lemma distinct_keys_members (ms : list (jsstring * value)) :
  fold_right (fun m acc => distinct_keys (snd m) /\ acc) True ms
  <-> Forall (fun m => distinct_keys (snd m)) ms.
Proof.
  induction ms as [|m ms IH]; simpl.
  - split; [constructor | trivial].
  - rewrite IH. split.
    + intros [H1 H2]. now constructor.
    + intros H. inversion H; subst. now split.
Qed.

Lemma join_cons2 (sep p : jsstring) (ps : list jsstring) :
  ps <> [] -> join sep (p :: ps) = p ++ sep ++ join sep ps.
Proof. destruct ps; [congruence | reflexivity]. Qed.

Lemma join_head (sep : jsstring) (p : jsstring) (ps : list jsstring)
    (c : N) (t : jsstring) :
  p = c :: t -> exists t', join sep (p :: ps) = c :: t'.
Proof.
  intros ->. destruct ps as [|q ps].
  - now exists t.
  - rewrite join_cons2 by discriminate.
    now exists (t ++ sep ++ join sep (q :: ps)).
Qed.

Lemma ends_value_comma (s : jsstring) : ends_value (44 :: s).
Proof. repeat split; discriminate. Qed.

Lemma ends_value_newline (s : jsstring) : ends_value (10 :: s).
Proof. repeat split; discriminate. Qed.

Lemma blank_unit (c : N) :
  is_ws c = true -> c = 32 \/ c = 9 \/ c = 10 \/ c = 13.
Proof.
  unfold is_ws. intros H.
  repeat (apply orb_prop in H; destruct H as [H|H]);
    apply N.eqb_eq in H; tauto.
Qed.

Lemma ends_value_closing (closing : jsstring) (c : N) (rest : jsstring) :
  blank closing -> c = 93 \/ c = 125 ->
  ends_value (closing ++ c :: rest).
Proof.
  intros H Hc. destruct closing as [|w closing]; simpl.
  - destruct Hc as [-> | ->]; repeat split; discriminate.
  - inversion H as [|? ? Hw _]; subst. apply blank_unit in Hw.
    destruct Hw as [-> | [-> | [-> | ->]]]; repeat split; discriminate.
Qed.

Lemma elements_round_trip (indent' closing rest : jsstring)
    (vs : list value) :
  blank indent' -> blank closing ->
  Forall round_trips vs -> Forall distinct_keys vs -> vs <> [] ->
  forall fuel,
    (fold_right (fun v acc => S (weight v + acc)) O vs <= fuel)%nat ->
    parse_elements fuel
      (join (44 :: 10 :: indent')
         (List.map (SerializeJSONProperty indent') vs)
       ++ closing ++ 93 :: rest)
    = Some (vs, rest).
Proof.
  intros Hi Hc Hrt Hdk.
  induction vs as [|v vs IH]; intros Hne fuel Hfuel; [congruence|].
  inversion Hrt as [|? ? Hv Hvs]; subst.
  inversion Hdk as [|? ? Dv Dvs]; subst.
  simpl in Hfuel. destruct fuel as [|fuel]; [lia|].
  rewrite parse_elements_S.
  destruct vs as [|v2 vs].
  - change (join (44 :: 10 :: indent')
              (List.map (SerializeJSONProperty indent') [v]))
      with (SerializeJSONProperty indent' v).
    rewrite (Hv Dv indent' (closing ++ 93 :: rest) fuel Hi);
      [|lia|apply ends_value_closing; [exact Hc | now left]].
    rewrite skip_ws_blank by exact Hc.
    rewrite skip_ws_token by reflexivity. reflexivity.
  - change (List.map (SerializeJSONProperty indent') (v :: v2 :: vs))
      with (SerializeJSONProperty indent' v
              :: List.map (SerializeJSONProperty indent') (v2 :: vs)).
    rewrite join_cons2 by discriminate.
    rewrite <- !List.app_assoc.
    change ((44 :: 10 :: indent') ++
            join (44 :: 10 :: indent')
              (List.map (SerializeJSONProperty indent') (v2 :: vs)) ++
            closing ++ 93 :: rest)
      with (44 :: (10 :: indent') ++
            join (44 :: 10 :: indent')
              (List.map (SerializeJSONProperty indent') (v2 :: vs)) ++
            closing ++ 93 :: rest).
    rewrite (Hv Dv indent' _ fuel Hi); [|lia|apply ends_value_comma].
    rewrite skip_ws_token by reflexivity.
    change (44 =? 44) with true. cbv iota.
    rewrite parse_elements_blank by (now apply blank_newline).
    rewrite IH; [reflexivity | exact Hvs | exact Dvs | discriminate | lia].
Qed.

Lemma member_text (k body : jsstring) :
  (QuoteJSONString k ++ [58; 32] ++ body)
  = 34 :: quote_units k ++ 34 :: 58 :: 32 :: body.
Proof.
  unfold QuoteJSONString. simpl. now rewrite <- List.app_assoc.
Qed.

Lemma member_step (fuel : nat) (k : jsstring) (v : value)
    (indent' following : jsstring) :
  round_trips v -> distinct_keys v -> blank indent' ->
  (weight v <= fuel)%nat -> ends_value following ->
  parse_members (S fuel)
    (QuoteJSONString k ++ [58; 32]
     ++ SerializeJSONProperty indent' v ++ following)
  = match skip_ws following with
    | [] => None
    | c' :: t'' =>
        if c' =? 44 then
          match parse_members fuel t'' with
          | Some (ms, rest'') => Some ((k, v) :: ms, rest'')
          | None => None
          end
        else if c' =? 125 then Some ([(k, v)], t'')
        else None
    end.
Proof.
  intros Hv Dv Hi Hfuel Hfollow.
  rewrite member_text, parse_members_S.
  rewrite skip_ws_token by reflexivity.
  change (34 =? 34) with true. cbv iota.
  rewrite parse_chars_quote_units.
  rewrite skip_ws_token by reflexivity.
  change (58 =? 58) with true. cbv iota.
  change (32 :: SerializeJSONProperty indent' v ++ following)
    with ([32] ++ SerializeJSONProperty indent' v ++ following).
  rewrite parse_value_blank by (repeat constructor).
  now rewrite (Hv Dv indent' following fuel Hi Hfuel Hfollow).
Qed.

Lemma members_round_trip (indent' closing rest : jsstring)
    (ms : list (jsstring * value)) :
  blank indent' -> blank closing ->
  Forall (fun m => round_trips (snd m)) ms ->
  Forall (fun m => distinct_keys (snd m)) ms -> ms <> [] ->
  forall fuel,
    (fold_right (fun m acc => S (weight (snd m) + acc)) O ms <= fuel)%nat ->
    parse_members fuel
      (join (44 :: 10 :: indent')
         (List.map
            (fun m =>
               QuoteJSONString (fst m) ++ [58; 32]
               ++ SerializeJSONProperty indent' (snd m)) ms)
       ++ closing ++ 125 :: rest)
    = Some (ms, rest).
Proof.
  intros Hi Hc Hrt Hdk.
  induction ms as [|[k v] ms IH]; intros Hne fuel Hfuel; [congruence|].
  inversion Hrt as [|? ? Hv Hvs]; subst.
  inversion Hdk as [|? ? Dv Dvs]; subst.
  simpl in Hfuel, Hv, Dv. destruct fuel as [|fuel]; [lia|].
  destruct ms as [|m2 ms].
  - change (join (44 :: 10 :: indent')
              (List.map
                 (fun m =>
                    QuoteJSONString (fst m) ++ [58; 32]
                    ++ SerializeJSONProperty indent' (snd m)) [(k, v)]))
      with (QuoteJSONString k ++ [58; 32] ++ SerializeJSONProperty indent' v).
    rewrite <- !List.app_assoc.
    rewrite member_step;
      [| exact Hv | exact Dv | exact Hi | lia
       | apply ends_value_closing; [exact Hc | now right]].
    rewrite skip_ws_blank by exact Hc.
    rewrite skip_ws_token by reflexivity. reflexivity.
  - change (List.map
              (fun m =>
                 QuoteJSONString (fst m) ++ [58; 32]
                 ++ SerializeJSONProperty indent' (snd m))
              ((k, v) :: m2 :: ms))
      with ((QuoteJSONString k ++ [58; 32]
             ++ SerializeJSONProperty indent' v)
            :: List.map
                 (fun m =>
                    QuoteJSONString (fst m) ++ [58; 32]
                    ++ SerializeJSONProperty indent' (snd m))
                 (m2 :: ms)).
    rewrite join_cons2 by discriminate.
    rewrite <- !List.app_assoc.
    rewrite member_step;
      [| exact Hv | exact Dv | exact Hi | lia | apply ends_value_comma].
    change ((44 :: 10 :: indent') ++
            join (44 :: 10 :: indent')
              (List.map
                 (fun m =>
                    QuoteJSONString (fst m) ++ [58; 32]
                    ++ SerializeJSONProperty indent' (snd m)) (m2 :: ms)) ++
            closing ++ 125 :: rest)
      with (44 :: (10 :: indent') ++
            join (44 :: 10 :: indent')
              (List.map
                 (fun m =>
                    QuoteJSONString (fst m) ++ [58; 32]
                    ++ SerializeJSONProperty indent' (snd m)) (m2 :: ms)) ++
            closing ++ 125 :: rest).
    rewrite skip_ws_token by reflexivity.
    change (44 =? 44) with true. cbv iota.
    rewrite parse_members_blank by (now apply blank_newline).
    rewrite IH; [reflexivity | exact Hvs | exact Dvs | discriminate | lia].
Qed.

Lemma text_brackets (o c : N) (indent' body indent rest : jsstring) :
  ([o; 10] ++ indent' ++ body ++ [10] ++ indent ++ [c]) ++ rest
  = o :: (10 :: indent') ++ body ++ (10 :: indent) ++ c :: rest.
Proof.
  simpl. repeat rewrite <- List.app_assoc.
  simpl. repeat rewrite <- List.app_assoc. reflexivity.
Qed.

Lemma serialize_array (indent : jsstring) (v : value) (vs : list value)
    (rest : jsstring) :
  SerializeJSONProperty indent (JArray (v :: vs)) ++ rest
  = 91 :: (10 :: indent ++ gap)
       ++ join (44 :: 10 :: indent ++ gap)
            (List.map (SerializeJSONProperty (indent ++ gap)) (v :: vs))
       ++ (10 :: indent) ++ 93 :: rest.
Proof.
  change (SerializeJSONProperty indent (JArray (v :: vs)))
    with ([91; 10] ++ (indent ++ gap)
          ++ join ([44; 10] ++ indent ++ gap)
               (List.map (SerializeJSONProperty (indent ++ gap)) (v :: vs))
          ++ [10] ++ indent ++ [93]).
  apply text_brackets.
Qed.

Lemma serialize_object (indent : jsstring) (m : jsstring * value)
    (ms : list (jsstring * value)) (rest : jsstring) :
  SerializeJSONProperty indent (JObject (m :: ms)) ++ rest
  = 123 :: (10 :: indent ++ gap)
        ++ join (44 :: 10 :: indent ++ gap)
             (List.map
                (fun m =>
                   QuoteJSONString (fst m) ++ [58; 32]
                   ++ SerializeJSONProperty (indent ++ gap) (snd m))
                (m :: ms))
        ++ (10 :: indent) ++ 125 :: rest.
Proof.
  change (SerializeJSONProperty indent (JObject (m :: ms)))
    with ([123; 10] ++ (indent ++ gap)
          ++ join ([44; 10] ++ indent ++ gap)
               (List.map
                  (fun m =>
                     QuoteJSONString (fst m) ++ [58; 32]
                     ++ SerializeJSONProperty (indent ++ gap) (snd m))
                  (m :: ms))
          ++ [10] ++ indent ++ [125]).
  apply text_brackets.
Qed.

Lemma opens_value_token (c : N) (t : jsstring) :
  opens_value c -> skip_ws (c :: t) = c :: t.
Proof. intros [H _]. now apply skip_ws_token. Qed.

Lemma parse_value_array (fuel : nat) (w body : jsstring) (c : N)
    (t : jsstring) :
  blank w -> body = c :: t -> opens_value c ->
  parse_value (S fuel) (91 :: w ++ body) =
  match parse_elements fuel body with
  | Some (vs, rest) => Some (JArray vs, rest)
  | None => None
  end.
Proof.
  intros Hw -> [Hws [Hc _]].
  rewrite parse_value_S, skip_ws_token by reflexivity.
  change (91 =? 34) with false. change (91 =? 91) with true. cbv iota.
  rewrite skip_ws_blank by exact Hw.
  rewrite skip_ws_token by exact Hws.
  apply N.eqb_neq in Hc. now rewrite Hc.
Qed.

Lemma parse_value_object (fuel : nat) (w body : jsstring) (c : N)
    (t : jsstring) :
  blank w -> body = c :: t -> opens_value c ->
  parse_value (S fuel) (123 :: w ++ body) =
  match parse_members fuel body with
  | Some (ms, rest) => Some (object_of ms, rest)
  | None => None
  end.
Proof.
  intros Hw -> [Hws [_ Hc]].
  rewrite parse_value_S, skip_ws_token by reflexivity.
  change (123 =? 34) with false. change (123 =? 91) with false.
  change (123 =? 123) with true. cbv iota.
  rewrite skip_ws_blank by exact Hw.
  rewrite skip_ws_token by exact Hws.
  apply N.eqb_neq in Hc. now rewrite Hc.
Qed.

Theorem value_round_trips (v : value) : round_trips v.
Proof.
  induction v using value_nested_ind; intros D indent rest fuel Hi Hf Hr;
    (destruct fuel as [|fuel]; [simpl in Hf; lia|]).
  - reflexivity.
  - destruct b; reflexivity.
  - change (SerializeJSONProperty indent (JNumber z))
      with (number_to_string z).
    rewrite parse_value_S.
    destruct (number_to_string_head z) as [c [t [E Hc]]].
    assert (Hrange : c = 45 \/ 48 <= c <= 57)
      by (destruct Hc as [Hc|Hc];
          [now left | right; now apply digit_unit_range]).
    pose proof (parse_number_to_string z rest Hr) as Hp.
    rewrite E in *.
    change ((c :: t) ++ rest) with (c :: t ++ rest) in *.
    rewrite skip_ws_token.
    + repeat match goal with
             | |- context [c =? ?b] =>
                 destruct (N.eqb_spec c b); [lia|]
             end.
      exact Hp.
    + unfold is_ws.
      repeat match goal with
             | |- context [c =? ?b] =>
                 destruct (N.eqb_spec c b); [lia|]
             end.
      reflexivity.
  - change (SerializeJSONProperty indent (JString s) ++ rest)
      with (34 :: (quote_units s ++ [34]) ++ rest).
    rewrite <- List.app_assoc.
    rewrite parse_value_S, skip_ws_token by reflexivity.
    change (34 =? 34) with true. cbv iota.
    change ([34] ++ rest) with (34 :: rest).
    now rewrite parse_chars_quote_units.
  - destruct vs as [|v vs]; [reflexivity|].
    assert (D' : Forall distinct_keys (v :: vs))
      by (apply distinct_keys_elements; exact D).
    destruct (SerializeJSONProperty_head (indent ++ gap) v) as [c [t [E Hc]]].
    destruct (join_head (44 :: 10 :: indent ++ gap) _
                (List.map (SerializeJSONProperty (indent ++ gap)) vs)
                c t E) as [t' E'].
    rewrite serialize_array.
    rewrite (parse_value_array fuel (10 :: indent ++ gap) _ c
               (t' ++ (10 :: indent) ++ 93 :: rest));
      [| apply blank_newline; now apply blank_gap
       | exact (f_equal (fun l => l ++ (10 :: indent) ++ 93 :: rest) E')
       | exact Hc].
    rewrite (elements_round_trip (indent ++ gap) (10 :: indent) rest
               (v :: vs) (blank_gap _ Hi) (blank_newline _ Hi) H D');
      [reflexivity | discriminate | simpl in Hf |- *; lia].
  - destruct ms as [|m ms]; [reflexivity|].
    destruct D as [Dk D].
    assert (D' : Forall (fun m => distinct_keys (snd m)) (m :: ms))
      by (apply distinct_keys_members; exact D).
    destruct (join_head (44 :: 10 :: indent ++ gap)
                (QuoteJSONString (fst m) ++ [58; 32]
                 ++ SerializeJSONProperty (indent ++ gap) (snd m))
                (List.map
                   (fun m =>
                      QuoteJSONString (fst m) ++ [58; 32]
                      ++ SerializeJSONProperty (indent ++ gap) (snd m)) ms)
                34 _ eq_refl) as [t' E'].
    rewrite serialize_object.
    rewrite (parse_value_object fuel (10 :: indent ++ gap) _ 34
               (t' ++ (10 :: indent) ++ 125 :: rest));
      [| apply blank_newline; now apply blank_gap
       | exact (f_equal (fun l => l ++ (10 :: indent) ++ 125 :: rest) E')
       | repeat split; discriminate].
    rewrite (members_round_trip (indent ++ gap) (10 :: indent) rest
               (m :: ms) (blank_gap _ Hi) (blank_newline _ Hi) H D');
      [| discriminate | simpl in Hf |- *; lia].
    now rewrite object_of_distinct.
Qed.

(** *** Fuel *)

Lemma join_weight {A : Type} (w : A -> nat) (f : A -> jsstring)
    (sep : jsstring) (l : list A) :
  Forall (fun a => (w a <= List.length (f a))%nat) l ->
  (1 <= List.length sep)%nat ->
  (fold_right (fun a acc => S (w a + acc)) O l
   <= S (List.length (join sep (List.map f l))))%nat.
Proof.
  intros Hl Hsep. induction Hl as [|a l Ha Hl IH]; simpl; [lia|].
  destruct l as [|b l].
  - simpl. lia.
  - change (List.map f (b :: l)) with (f b :: List.map f l) in *.
    cbv iota. rewrite !length_app. lia.
Qed.

Lemma weight_le_length (v : value) (indent : jsstring) :
  (weight v <= List.length (SerializeJSONProperty indent v))%nat.
Proof.
  revert indent. induction v using value_nested_ind; intros indent.
  - simpl. lia.
  - destruct b; simpl; lia.
  - change (SerializeJSONProperty indent (JNumber z))
      with (number_to_string z).
    destruct (number_to_string_head z) as [c [t [-> _]]]. simpl. lia.
  - simpl. lia.
  - destruct vs as [|v vs]; [simpl; lia|].
    rewrite <- (List.app_nil_r (SerializeJSONProperty indent _)).
    rewrite serialize_array.
    pose proof (join_weight weight (SerializeJSONProperty (indent ++ gap))
                  (44 :: 10 :: indent ++ gap) (v :: vs)) as Hj.
    change (weight (JArray (v :: vs)))
      with (S (fold_right (fun v acc => S (weight v + acc)) O (v :: vs)))%nat.
    cbn [List.length]. rewrite !length_app. cbn [List.length].
    assert (Nat.le
              (fold_right (fun v acc => S (weight v + acc)%nat) O (v :: vs))
              (S (List.length
                    (join (44 :: 10 :: indent ++ gap)
                       (List.map (SerializeJSONProperty (indent ++ gap))
                          (v :: vs)))))).
    { apply Hj; [|simpl; lia].
      eapply Forall_impl; [|exact H]. intros a Ha. apply Ha. }
    lia.
  - destruct ms as [|m ms]; [simpl; lia|].
    rewrite <- (List.app_nil_r (SerializeJSONProperty indent _)).
    rewrite serialize_object.
    pose proof (join_weight (fun m => weight (snd m))
                  (fun m =>
                     QuoteJSONString (fst m) ++ [58; 32]
                     ++ SerializeJSONProperty (indent ++ gap) (snd m))
                  (44 :: 10 :: indent ++ gap) (m :: ms)) as Hj.
    change (weight (JObject (m :: ms)))
      with (S (fold_right (fun m acc => S (weight (snd m) + acc)) O
                 (m :: ms)))%nat.
    cbn [List.length]. rewrite !length_app. cbn [List.length].
    assert (Nat.le
              (fold_right (fun m acc => S (weight (snd m) + acc)%nat) O
                 (m :: ms))
              (S (List.length
                    (join (44 :: 10 :: indent ++ gap)
                       (List.map
                          (fun m =>
                             QuoteJSONString (fst m) ++ [58; 32]
                             ++ SerializeJSONProperty (indent ++ gap) (snd m))
                          (m :: ms)))))).
    { apply Hj; [|simpl; lia].
      eapply Forall_impl; [|exact H]. intros a Ha.
      rewrite !length_app. specialize (Ha (indent ++ gap)). lia. }
    lia.
Qed.

(** [JSON.parse (JSON.stringify (v, null, 2))] is [v]. *)
Theorem parse_stringify (v : value) :
  distinct_keys v -> parse (stringify v) = Some v.
Proof.
  intros D. unfold parse, stringify.
  pose proof (value_round_trips v D [] []
                (S (List.length (SerializeJSONProperty [] v)))
                (Forall_nil _)) as H.
  rewrite List.app_nil_r in H.
  rewrite H; [reflexivity | | exact I].
  pose proof (weight_le_length v []). lia.
Qed.

(** The layout of the text: two spaces per level, one element per
    line. *)
Example stringify_array :
  stringify (JArray [JNumber 1; JNumber (-20); JArray []]) =
  [91; 10; 32; 32; 49; 44; 10; 32; 32; 45; 50; 48; 44; 10;
   32; 32; 91; 93; 10; 93].
Proof. reflexivity. Qed.

(** A quote, a line feed, a surrogate on its own, a letter and a
    surrogate pair. *)
Example stringify_string :
  stringify (JString [34; 10; 55357; 65; 55357; 56832]) =
  [34; 92; 34; 92; 110; 92; 117; 100; 56; 51; 100; 65; 55357; 56832; 34].
Proof. reflexivity. Qed.

(** A key given twice keeps its first place and its last value. *)
Example parse_repeated_key :
  parse [123; 34; 97; 34; 58; 49; 44; 34; 98; 34; 58; 50; 44;
         34; 97; 34; 58; 51; 125] =
  Some (JObject [([97], JNumber 3); ([98], JNumber 2)]).
Proof. reflexivity. Qed.

End JSONFacts.

(** ** Export *)

Lemma point_value_distinct_keys (pt : Z * Z) :
  JSON.distinct_keys (point_value pt).
Proof. simpl. tauto. Qed.

Lemma player_value_distinct_keys (p : Player) :
  JSON.distinct_keys (player_value p).
Proof.
  unfold player_value. split.
  - simpl List.map. repeat constructor; simpl;
      intros H; repeat (destruct H as [H|H]; [discriminate H|]); exact H.
  - simpl. repeat split.
    apply JSONFacts.distinct_keys_elements.
    apply Forall_map, Forall_forall. intros pt _.
    apply point_value_distinct_keys.
Qed.

Lemma exportData_distinct_keys (st : State) :
  JSON.distinct_keys (exportData st).
Proof.
  unfold exportData. split.
  - simpl List.map. repeat constructor; simpl;
      intros H; repeat (destruct H as [H|H]; [discriminate H|]); exact H.
  - simpl. repeat split.
    apply JSONFacts.distinct_keys_elements.
    apply Forall_map, Forall_forall. intros p _.
    apply player_value_distinct_keys.
Qed.

(** C7. The text [exportToJson] produces parses back to an object
    [{ elapsedTime, players: [{ id, name, color, dataPoints }] }] that
    holds the [elapsedTime] of the state and, for each player in list
    order, that player's id, name, color and series; exporting queues no
    update and leaves the state as it is. *)
Theorem exportToJson_round_trip (st : State) :
  JSON.parse (exportToJson st) =
  Some (JSON.JObject
          [(js "elapsedTime", JSON.JNumber (elapsedTime st));
           (js "players",
            JSON.JArray
              (List.map
                 (fun player =>
                    JSON.JObject
                      [(js "id", JSON.JNumber (id player));
                       (js "name", JSON.JString (name player));
                       (js "color", JSON.JString (color player));
                       (js "dataPoints",
                        JSON.JArray
                          (List.map
                             (fun pt =>
                                JSON.JArray [JSON.JNumber (fst pt);
                                             JSON.JNumber (snd pt)])
                             (dataPoints player)))])
                 (players st)))])
  /\ handle ExportToJson st = []
  /\ step st ExportToJson = st.
Proof.
  split; [|split; reflexivity].
  apply (JSONFacts.parse_stringify (exportData st)).
  apply exportData_distinct_keys.
Qed.

(** * Further properties *)

(** ** Removing a player *)

Lemma run_ids_invariant (es : list Event) (st : State) :
  StronglySorted Z.lt (List.map id (players st)) ->
  Forall (fun i => i < nextPlayerId st) (List.map id (players st)) ->
  StronglySorted Z.lt (List.map id (players (run st es)))
  /\ Forall (fun i => i < nextPlayerId (run st es))
       (List.map id (players (run st es))).
Proof.
  revert st. induction es as [|e es IH]; intros st Hs Hb; [now split|].
  rewrite run_cons. destruct (step_ids_sorted st e Hs Hb) as [Hs' Hb'].
  now apply IH.
Qed.

Lemma reachable_ids (t0 : Z) (es : list Event) :
  NoDup (List.map id (players (run (mount t0) es)))
  /\ Forall (fun i => i < nextPlayerId (run (mount t0) es))
       (List.map id (players (run (mount t0) es))).
Proof.
  destruct (run_ids_invariant es (mount t0)) as [Hs Hb];
    [constructor | constructor |].
  split; [now apply StronglySorted_lt_NoDup | exact Hb].
Qed.

(** X1. [removePlayer i] keeps exactly the players whose id is not [i],
    touches none of the other cells of the state, and removing the same
    id once more changes nothing. *)
Theorem removePlayer_effect (st : State) (i : Z) :
  let st' := step st (RemovePlayer i) in
  (forall p, In p (players st') <-> In p (players st) /\ id p <> i)
  /\ firstPlayerTime st' = firstPlayerTime st
  /\ elapsedTime st' = elapsedTime st
  /\ nextPlayerId st' = nextPlayerId st
  /\ startTime st' = startTime st
  /\ step st' (RemovePlayer i) = st'.
Proof.
  cbv zeta. rewrite !step_removePlayer; simpl.
  split; [|repeat split].
  - intros p. rewrite filter_In, negb_true_iff, Z.eqb_neq. tauto.
  - f_equal. induction (players st) as [|p l IH]; simpl; [reflexivity|].
    destruct (id p =? i) eqn:E; simpl; [exact IH|].
    rewrite E. simpl. now f_equal.
Qed.

Lemma filter_unique_holder (i : Z) (l : list Player) :
  NoDup (List.map id l) -> In i (List.map id l) ->
  exists l1 p l2,
    l = l1 ++ p :: l2 /\ id p = i
    /\ filter (fun player => negb (id player =? i)) l = l1 ++ l2.
Proof.
  induction l as [|a l IH]; simpl; intros Hn Hin; [contradiction|].
  inversion Hn as [|? ? Ha Hl]; subst.
  destruct (id a =? i) eqn:E.
  - apply Z.eqb_eq in E. exists [], a, l. simpl.
    repeat split; [exact E|]. apply filter_absent. now rewrite <- E.
  - apply Z.eqb_neq in E. destruct Hin as [Hin|Hin]; [contradiction|].
    destruct (IH Hl Hin) as [l1 [p [l2 [-> [Hp Hf]]]]].
    exists (a :: l1), p, l2. simpl. rewrite Hf. auto.
Qed.

(** X2. In a state reached from the mounted component, removing an id
    that a player holds takes out that one player and keeps the others
    in their order. *)
Theorem removePlayer_exactly_one (t0 : Z) (es : list Event) (i : Z) :
  In i (List.map id (players (run (mount t0) es))) ->
  exists l1 p l2,
    players (run (mount t0) es) = l1 ++ p :: l2
    /\ id p = i
    /\ players (step (run (mount t0) es) (RemovePlayer i)) = l1 ++ l2.
Proof.
  intros Hin. rewrite step_removePlayer; simpl.
  apply filter_unique_holder; [apply reachable_ids | exact Hin].
Qed.

Lemma removePlayer_exactly_one_witness :
  In 1 (List.map id (players (run (mount 0) scenario)))
  /\ exists l1 p l2,
       players (run (mount 0) scenario) = l1 ++ p :: l2
       /\ id p = 1
       /\ players (step (run (mount 0) scenario) (RemovePlayer 1)) = l1 ++ l2.
Proof.
  assert (H : In 1 (List.map id (players (run (mount 0) scenario))))
    by (left; reflexivity).
  split; [exact H|].
  exact (removePlayer_exactly_one 0 scenario 1 H).
Defined.

Lemma step_keeps_absent (st : State) (e : Event) (i : Z) :
  i < nextPlayerId st -> ~ In i (List.map id (players st)) ->
  i < nextPlayerId (step st e)
  /\ ~ In i (List.map id (players (step st e))).
Proof.
  intros Hlt Habs. split.
  - pose proof (step_nextPlayerId_le st e). lia.
  - intros Hin. apply step_players_ids in Hin.
    apply in_app_or in Hin. destruct Hin as [Hin|Hin]; [now apply Habs|].
    simpl in Hin. rewrite List.app_nil_r in Hin.
    destruct e; try contradiction.
    destruct (truthy playerName); [|contradiction].
    destruct Hin as [Hin|[]]. lia.
Qed.

Lemma run_keeps_absent (es : list Event) (st : State) (i : Z) :
  i < nextPlayerId st -> ~ In i (List.map id (players st)) ->
  ~ In i (List.map id (players (run st es))).
Proof.
  revert st. induction es as [|e es IH]; intros st Hlt Habs; [exact Habs|].
  rewrite run_cons. destruct (step_keeps_absent st e i Hlt Habs).
  now apply IH.
Qed.

(** X3. A player that was removed does not come back: once an id held
    by a player has been removed, no state reached afterwards has a
    player with that id, whatever is added later. *)
Theorem removed_id_stays_absent (t0 : Z) (es1 es2 : list Event) (i : Z) :
  In i (List.map id (players (run (mount t0) es1))) ->
  ~ In i (List.map id
            (players (run (mount t0) (es1 ++ RemovePlayer i :: es2)))).
Proof.
  intros Hin. rewrite run_app, run_cons.
  destruct (reachable_ids t0 es1) as [_ Hb].
  rewrite Forall_forall in Hb. specialize (Hb i Hin).
  apply run_keeps_absent.
  - rewrite step_nextPlayerId. exact Hb.
  - rewrite step_removePlayer; simpl. intros H.
    apply in_map_iff in H. destruct H as [p [Hp H]].
    apply filter_In in H. destruct H as [_ H].
    apply negb_true_iff, Z.eqb_neq in H. contradiction.
Qed.

Lemma removed_id_stays_absent_witness :
  In 1 (List.map id (players (run (mount 0) scenario)))
  /\ ~ In 1 (List.map id
               (players
                  (run (mount 0)
                     (scenario ++ RemovePlayer 1
                        :: [AddPlayer (Some Alice) 9000 7;
                            Tick 10000 10000])))).
Proof.
  assert (H : In 1 (List.map id (players (run (mount 0) scenario))))
    by (left; reflexivity).
  split; [exact H|].
  exact (removed_id_stays_absent 0 scenario
           [AddPlayer (Some Alice) 9000 7; Tick 10000 10000] 1 H).
Defined.

(** ** Changing a color *)

(** X4. [changePlayerColor i c] gives the color [c], any string, to the
    holders of id [i] and changes nothing else: every player keeps its
    id, name, score and series, the others keep their color, and the
    clock, [firstPlayerTime] and [nextPlayerId] stay as they were. *)
Theorem changePlayerColor_effect (st : State) (i : Z) (c : jsstring) :
  let st' := step st (ChangePlayerColor i c) in
  Forall2 (recolored i c) (players st) (players st')
  /\ firstPlayerTime st' = firstPlayerTime st
  /\ elapsedTime st' = elapsedTime st
  /\ nextPlayerId st' = nextPlayerId st
  /\ startTime st' = startTime st.
Proof.
  cbv zeta. rewrite step_changePlayerColor; simpl.
  split; [|repeat split].
  apply Forall2_map_r. intros p _. unfold recolored.
  destruct (id p =? i); simpl; repeat split.
Qed.

(** X5. Color changes compose: a second change for the same id
    overrides the first, and changes for different ids can be made in
    either order. *)
Theorem changePlayerColor_compose (st : State) (i j : Z)
    (c1 c2 : jsstring) :
  step (step st (ChangePlayerColor i c1)) (ChangePlayerColor j c2)
  = if i =? j then step st (ChangePlayerColor j c2)
    else step (step st (ChangePlayerColor j c2)) (ChangePlayerColor i c1).
Proof.
  rewrite !step_changePlayerColor; simpl.
  destruct (i =? j) eqn:E.
  - apply Z.eqb_eq in E. subst j. f_equal.
    rewrite map_map. apply map_ext. intros p.
    destruct (id p =? i) eqn:Ep; simpl; rewrite Ep; reflexivity.
  - f_equal.
    rewrite !map_map. apply map_ext. intros p.
    destruct (id p =? i) eqn:Ei, (id p =? j) eqn:Ej; simpl;
      rewrite ?Ei, ?Ej; try reflexivity.
    apply Z.eqb_eq in Ei, Ej. apply Z.eqb_neq in E. congruence.
Qed.

(** ** Events aimed at an id nobody holds *)

Lemma map_absent (i : Z) (g : Player -> Player) (l : list Player) :
  ~ In i (List.map id l) ->
  List.map (fun player => if id player =? i then g player else player) l = l.
Proof.
  induction l as [|p l IH]; simpl; intros H; [reflexivity|].
  destruct (id p =? i) eqn:E.
  - apply Z.eqb_eq in E. exfalso. apply H. now left.
  - f_equal. apply IH. intros Hin. apply H. now right.
Qed.

(** X6. When no player holds id [i], [changePlayerColor i] leaves the
    state as it is, while [incrementPlayer i] and [decrementPlayer i]
    still perform the synchronized append: they change the state
    exactly as a tick read at the same instant does. *)
Theorem absent_id_events (st : State) (i now : Z) (c : jsstring) :
  ~ In i (List.map id (players st)) ->
  step st (ChangePlayerColor i c) = st
  /\ step st (IncrementPlayer i now) = step st (Tick now now)
  /\ step st (DecrementPlayer i now) = step st (Tick now now).
Proof.
  intros H.
  rewrite step_changePlayerColor, step_incrementPlayer,
    step_decrementPlayer, step_tick.
  rewrite !(map_absent i) by exact H.
  repeat split. apply state_eta.
Qed.

Lemma absent_id_events_witness :
  ~ In 7 (List.map id (players (run (mount 0) scenario)))
  /\ step (run (mount 0) scenario) (ChangePlayerColor 7 (js "#000000"))
     = run (mount 0) scenario
  /\ step (run (mount 0) scenario) (IncrementPlayer 7 9000)
     = step (run (mount 0) scenario) (Tick 9000 9000)
  /\ step (run (mount 0) scenario) (DecrementPlayer 7 9000)
     = step (run (mount 0) scenario) (Tick 9000 9000).
Proof.
  assert (H : ~ In 7 (List.map id (players (run (mount 0) scenario)))).
  { simpl. intros [H|[H|[]]]; discriminate H. }
  split; [exact H|].
  exact (absent_id_events (run (mount 0) scenario) 7 9000 (js "#000000") H).
Defined.

(** ** Scores along a series *)

(** X7. An increment followed by a decrement of the same id (and the
    other way round) brings every score back to what it was and leaves
    two more points in every series: the first with the score in
    between, the second with the score restored. *)
Theorem adjust_there_and_back (st : State) (i now1 now2 : Z) :
  Forall2
    (fun p q =>
       id q = id p /\ name q = name p /\ color q = color p
       /\ yValue q = yValue p
       /\ dataPoints q =
          dataPoints p
          ++ [(elapsed now1 (startTime st),
               if id p =? i then yValue p + 1 else yValue p);
              (elapsed now2 (startTime st), yValue p)])
    (players st)
    (players (run st [IncrementPlayer i now1; DecrementPlayer i now2]))
  /\ Forall2
       (fun p q =>
          id q = id p /\ name q = name p /\ color q = color p
          /\ yValue q = yValue p
          /\ dataPoints q =
             dataPoints p
             ++ [(elapsed now1 (startTime st),
                  if id p =? i then yValue p - 1 else yValue p);
                 (elapsed now2 (startTime st), yValue p)])
       (players st)
       (players (run st [DecrementPlayer i now1; IncrementPlayer i now2])).
Proof.
  unfold run; simpl fold_left.
  rewrite !step_incrementPlayer, !step_decrementPlayer; simpl.
  rewrite !map_map.
  split; apply Forall2_map_r; intros p _;
    destruct (id p =? i) eqn:E; simpl; rewrite ?E; simpl;
    rewrite <- ?List.app_assoc; simpl;
    repeat split; try (f_equal; lia);
    repeat f_equal; lia.
Qed.

Lemma unit_steps_snoc (l : list Z) (b : Z) :
  l <> [] -> unit_steps l -> -1 <= b - List.last l 0 <= 1 ->
  unit_steps (l ++ [b]).
Proof.
  induction l as [|a l IH]; intros Hne Hl Hb; [congruence|].
  destruct l as [|a' l].
  - simpl in *. repeat split; lia.
  - destruct Hl as [H1 H2].
    change ((a :: a' :: l) ++ [b]) with (a :: (a' :: l) ++ [b]).
    split; [exact H1|]. apply IH; [discriminate | exact H2 | exact Hb].
Qed.

Lemma score_ok_append (p q : Player) :
  score_ok p -> ys q = ys p ++ [yValue q] ->
  -1 <= yValue q - yValue p <= 1 -> score_ok q.
Proof.
  intros [Hh [Hl Hu]] Hq Hd. unfold score_ok. rewrite Hq.
  destruct (ys p) as [|a l] eqn:E; [discriminate|].
  split; [|split].
  - exact Hh.
  - apply last_last.
  - apply unit_steps_snoc; [discriminate | exact Hu | now rewrite Hl].
Qed.

Lemma score_ok_same (p q : Player) :
  score_ok p -> dataPoints q = dataPoints p -> yValue q = yValue p ->
  score_ok q.
Proof. unfold score_ok, ys. intros H -> ->. exact H. Qed.

Lemma step_score_ok (st : State) (e : Event) :
  Forall score_ok (players st) -> Forall score_ok (players (step st e)).
Proof.
  intros H.
  destruct e as [n now rnd|i|i now|i now|i c|now| |now1 now2].
  - destruct (truthy_cases n) as [[c [s [-> _]]]|[_ F]].
    + rewrite step_addPlayer_some; simpl. apply Forall_app. split; [exact H|].
      repeat constructor.
    + rewrite step_addPlayer_falsy by exact F. exact H.
  - rewrite step_removePlayer; simpl. now apply Forall_filter.
  - rewrite step_incrementPlayer; simpl. rewrite map_map.
    eapply Forall_map_intro; [|exact H]. intros p Hp.
    apply (score_ok_append p); [exact Hp | |].
    + destruct (id p =? i); unfold ys; simpl; now rewrite map_app.
    + destruct (id p =? i); simpl; lia.
  - rewrite step_decrementPlayer; simpl. rewrite map_map.
    eapply Forall_map_intro; [|exact H]. intros p Hp.
    apply (score_ok_append p); [exact Hp | |].
    + destruct (id p =? i); unfold ys; simpl; now rewrite map_app.
    + destruct (id p =? i); simpl; lia.
  - rewrite step_changePlayerColor; simpl.
    eapply Forall_map_intro; [|exact H]. intros p Hp.
    destruct (id p =? i); [|exact Hp].
    now apply (score_ok_same p).
  - rewrite step_resetAllPlayers; simpl.
    eapply Forall_map_intro; [|exact H]. intros p _.
    repeat split.
  - now rewrite step_exportToJson.
  - rewrite step_tick; simpl.
    eapply Forall_map_intro; [|exact H]. intros p Hp.
    apply (score_ok_append p); [exact Hp | |].
    + unfold ys; simpl. now rewrite map_app.
    + simpl. lia.
Qed.

Lemma run_score_ok (es : list Event) (st : State) :
  Forall score_ok (players st) -> Forall score_ok (players (run st es)).
Proof.
  revert st. induction es as [|e es IH]; intros st H; [exact H|].
  rewrite run_cons. apply IH. now apply step_score_ok.
Qed.

(** X8. In every state reached from the mounted component, each
    player's series is non-empty, its first point records the score 0,
    and its last point records the player's current score. *)
Theorem series_tracks_score (t0 : Z) (es : list Event) :
  Forall (fun p =>
            dataPoints p <> []
            /\ hd_error (ys p) = Some 0
            /\ List.last (ys p) 0 = yValue p)
         (players (run (mount t0) es)).
Proof.
  eapply Forall_impl; [|apply (run_score_ok es (mount t0)); constructor].
  intros p [Hh [Hl _]]. repeat split; [|exact Hh | exact Hl].
  intros E. unfold ys in Hh. rewrite E in Hh. discriminate.
Qed.

(** X9. In every state reached from the mounted component, the scores
    recorded at neighbouring points of a series differ by at most one:
    no change of a score goes unrecorded. *)
Theorem series_unit_steps (t0 : Z) (es : list Event) :
  Forall (fun p => unit_steps (ys p)) (players (run (mount t0) es)).
Proof.
  eapply Forall_impl; [|apply (run_score_ok es (mount t0)); constructor].
  intros p [_ [_ Hu]]. exact Hu.
Qed.

(** ** Consecutive ids *)

Lemma assigned_ids_from (es : list Event) (st : State) :
  assigned_ids st es =
  List.map (fun k => nextPlayerId st + Z.of_nat k)
    (seq 0 (List.length (assigned_ids st es)))
  /\ nextPlayerId (run st es) =
     nextPlayerId st + Z.of_nat (List.length (assigned_ids st es)).
Proof.
  revert st. induction es as [|e es IH]; intros st.
  - simpl. split; [reflexivity | lia].
  - rewrite run_cons. destruct (IH (step st e)) as [IH1 IH2].
    pose proof (step_nextPlayerId st e) as Hn.
    assert (Hcase :
              (assigned_ids st (e :: es)
               = nextPlayerId st :: assigned_ids (step st e) es
               /\ nextPlayerId (step st e) = nextPlayerId st + 1)
              \/ (assigned_ids st (e :: es) = assigned_ids (step st e) es
                  /\ nextPlayerId (step st e) = nextPlayerId st)).
    { destruct e; simpl; try (right; split; [reflexivity | exact Hn]).
      simpl in Hn. destruct (truthy playerName);
        [left | right]; (split; [reflexivity | exact Hn]). }
    destruct Hcase as [[Ha Hs]|[Ha Hs]]; rewrite Ha.
    + split.
      * simpl List.length. rewrite <- cons_seq, <- seq_shift. simpl.
        rewrite map_map. f_equal; [lia|].
        rewrite IH1 at 1. apply map_ext. intros k. lia.
      * rewrite IH2. simpl List.length. lia.
    + rewrite <- Hs. now split.
Qed.

Lemma assigned_ids_from_mount (t0 : Z) (es : list Event) :
  assigned_ids (mount t0) es =
  List.map Z.of_nat (seq 1 (List.length (assigned_ids (mount t0) es)))
  /\ nextPlayerId (run (mount t0) es) =
     Z.of_nat (List.length (assigned_ids (mount t0) es)) + 1.
Proof.
  destruct (assigned_ids_from es (mount t0)) as [H1 H2]. split.
  - rewrite H1 at 1. rewrite <- seq_shift, map_map.
    apply map_ext. intros k. simpl nextPlayerId. lia.
  - rewrite H2. simpl nextPlayerId. lia.
Qed.

Lemma successful_adds_snoc (es : list Event) (e : Event) :
  successful_adds (es ++ [e]) =
  (successful_adds es + (if is_successful_add e then 1 else 0))%nat.
Proof.
  unfold successful_adds. rewrite filter_app, length_app. simpl.
  destruct (is_successful_add e); reflexivity.
Qed.

(** X10. From the mounted component ids are handed out consecutively:
    a successful [addPlayer] that comes after k earlier successful ones
    appends a player whose id is k + 1, whatever was removed in between;
    [nextPlayerId] is one more than the number of players ever added;
    and the ids stored by all the adds so far are 1, 2, ..., k + 1 in
    this order. *)
Theorem kth_added_player_id (t0 : Z) (es : list Event)
    (playerName : option jsstring) (now : Z) (rnd : N) :
  truthy playerName = true ->
  let st := run (mount t0) es in
  (exists p,
      players (step st (AddPlayer playerName now rnd)) = players st ++ [p]
      /\ id p = Z.of_nat (successful_adds es) + 1)
  /\ nextPlayerId st = Z.of_nat (successful_adds es) + 1
  /\ added_ids (mount t0) (es ++ [AddPlayer playerName now rnd])
     = List.map Z.of_nat (seq 1 (S (successful_adds es))).
Proof.
  intros Ht. cbv zeta.
  destruct (assigned_ids_from_mount t0 es) as [_ Hn].
  rewrite assigned_ids_length in Hn.
  split; [|split; [exact Hn|]].
  - destruct (truthy_cases playerName) as [[c [s [-> _]]]|[_ F]];
      [|congruence].
    rewrite step_addPlayer_some; simpl.
    eexists. split; [reflexivity|]. simpl. exact Hn.
  - rewrite added_ids_assigned.
    destruct (assigned_ids_from_mount t0 (es ++ [AddPlayer playerName now rnd]))
      as [Ha _].
    rewrite assigned_ids_length, successful_adds_snoc in Ha.
    simpl is_successful_add in Ha. rewrite Ht in Ha.
    rewrite Ha. f_equal. f_equal. lia.
Qed.

Lemma kth_added_player_id_witness :
  truthy (Some Alice) = true
  /\ (exists p,
         players (step (run (mount 0) (scenario ++ [RemovePlayer 1]))
                    (AddPlayer (Some Alice) 9000 7))
         = players (run (mount 0) (scenario ++ [RemovePlayer 1])) ++ [p]
         /\ id p = 3)
  /\ nextPlayerId (run (mount 0) (scenario ++ [RemovePlayer 1])) = 3
  /\ added_ids (mount 0)
       ((scenario ++ [RemovePlayer 1]) ++ [AddPlayer (Some Alice) 9000 7])
     = [1; 2; 3].
Proof.
  split; [reflexivity|].
  exact (kth_added_player_id 0 (scenario ++ [RemovePlayer 1])
           (Some Alice) 9000 7 eq_refl).
Defined.

(** ** The export determines what is shown *)

Lemma point_value_inj (a b : Z * Z) : point_value a = point_value b -> a = b.
Proof.
  destruct a, b. unfold point_value. simpl. intros H.
  injection H as -> ->. reflexivity.
Qed.

Lemma map_injective {A B : Type} (f : A -> B) (l1 l2 : list A) :
  (forall a b, f a = f b -> a = b) ->
  List.map f l1 = List.map f l2 -> l1 = l2.
Proof.
  intros Hf. revert l2. induction l1 as [|a l1 IH]; intros [|b l2] H;
    try discriminate; [reflexivity|].
  simpl in H. injection H as H1 H2. f_equal; [now apply Hf | now apply IH].
Qed.

Lemma player_value_fields (p q : Player) :
  player_value p = player_value q ->
  id p = id q /\ name p = name q /\ color p = color q
  /\ dataPoints p = dataPoints q.
Proof.
  unfold player_value. intros H. injection H as H1 H2 H3 H4.
  repeat split; try assumption.
  apply (map_injective point_value); [apply point_value_inj | exact H4].
Qed.

Lemma exported_players_equal (l1 l2 : list Player) :
  Forall score_ok l1 -> Forall score_ok l2 ->
  List.map player_value l1 = List.map player_value l2 -> l1 = l2.
Proof.
  intros H1. revert l2. induction H1 as [|p l1 Hp H1 IH];
    intros [|q l2] H2 H; try discriminate; [reflexivity|].
  inversion H2 as [|? ? Hq H2']; subst.
  pose proof (f_equal (hd JSON.JNull) H) as Hpq.
  pose proof (f_equal (@tl JSON.value) H) as Ht.
  cbn [hd tl List.map] in Hpq, Ht.
  f_equal; [|now apply IH].
  apply player_value_fields in Hpq. destruct Hpq as [Ei [En [Ec Ed]]].
  destruct Hp as [_ [Lp _]], Hq as [_ [Lq _]].
  unfold ys in Lp, Lq. rewrite Ed in Lp.
  destruct p, q; simpl in *. congruence.
Qed.

(** X11. The exported text determines everything the component shows:
    two states reached from a mounted component that export the same
    text have the same [elapsedTime] and the same players, scores
    included, although the export leaves the score field out. *)
Theorem export_determines_players (t1 t2 : Z) (es1 es2 : list Event) :
  exportToJson (run (mount t1) es1) = exportToJson (run (mount t2) es2) ->
  elapsedTime (run (mount t1) es1) = elapsedTime (run (mount t2) es2)
  /\ players (run (mount t1) es1) = players (run (mount t2) es2).
Proof.
  intros H. apply (f_equal JSON.parse) in H. unfold exportToJson in H.
  rewrite !JSONFacts.parse_stringify in H
    by apply exportData_distinct_keys.
  unfold exportData in H. injection H as He Hp. split; [exact He|].
  apply exported_players_equal; [| | exact Hp];
    apply run_score_ok; constructor.
Qed.

Lemma export_determines_players_witness :
  exportToJson (run (mount 0) scenario)
  = exportToJson
      (run (mount 0)
         (AddPlayer None 50 3 :: scenario ++ [RemovePlayer 5; ExportToJson]))
  /\ elapsedTime (run (mount 0) scenario)
     = elapsedTime
         (run (mount 0)
            (AddPlayer None 50 3 :: scenario
             ++ [RemovePlayer 5; ExportToJson]))
  /\ players (run (mount 0) scenario)
     = players
         (run (mount 0)
            (AddPlayer None 50 3 :: scenario
             ++ [RemovePlayer 5; ExportToJson])).
Proof.
  assert (H : exportToJson (run (mount 0) scenario)
              = exportToJson
                  (run (mount 0)
                     (AddPlayer None 50 3 :: scenario
                      ++ [RemovePlayer 5; ExportToJson])))
    by (vm_compute; reflexivity).
  split; [exact H|].
  exact (export_determines_players 0 0 scenario
           (AddPlayer None 50 3 :: scenario
            ++ [RemovePlayer 5; ExportToJson]) H).
Defined.

(** ** The color of a new player *)

Lemma hex_units_length (d : Hexadecimal.uint) :
  List.length (hex_units d) = Hexadecimal.nb_digits d.
Proof. induction d; simpl; congruence. Qed.

Lemma hex_units_digits (d : Hexadecimal.uint) :
  Forall is_hex_digit_unit (hex_units d).
Proof.
  induction d; simpl; constructor; try assumption;
    unfold is_hex_digit_unit; lia.
Qed.

Lemma of_hex_uint_acc_bounds (d : Hexadecimal.uint) (acc : positive) :
  (N.pos acc * 16 ^ N.of_nat (Hexadecimal.nb_digits d)
   <= N.pos (Pos.of_hex_uint_acc d acc)
   < (N.pos acc + 1) * 16 ^ N.of_nat (Hexadecimal.nb_digits d))%N.
Proof.
  revert acc. induction d; intros acc;
    try (simpl Pos.of_hex_uint_acc; simpl Hexadecimal.nb_digits;
         rewrite Nat2N.inj_succ, N.pow_succ_r';
         match goal with
         | |- context [Pos.of_hex_uint_acc d ?a] => specialize (IHd a)
         end;
         assert (0 < 16 ^ N.of_nat (Hexadecimal.nb_digits d))%N
           by (apply N.neq_0_lt_0, N.pow_nonzero; discriminate);
         nia).
  simpl. lia.
Qed.

Lemma to_hex_uint_normal (p : positive) :
  Hexadecimal.unorm (Pos.to_hex_uint p) = Pos.to_hex_uint p.
Proof.
  rewrite <- (HexadecimalPos.Unsigned.to_of (Pos.to_hex_uint p)).
  now rewrite HexadecimalPos.Unsigned.of_to.
Qed.

Lemma to_hex_uint_head (p : positive) :
  match Pos.to_hex_uint p with
  | Hexadecimal.Nil => False
  | Hexadecimal.D0 _ => False
  | _ => True
  end.
Proof.
  pose proof (to_hex_uint_normal p) as Hn.
  pose proof (HexadecimalPos.Unsigned.to_uint_nonzero p) as Hz.
  destruct (Pos.to_hex_uint p) as [|d| | | | | | | | | | | | | | | ] eqn:E;
    try exact I.
  - discriminate Hn.
  - rewrite HexadecimalFacts.unorm_D0 in Hn.
    destruct d eqn:Ed; try congruence;
      (assert (Hd : d <> Hexadecimal.Nil) by (subst d; discriminate);
       subst d;
       apply HexadecimalFacts.nb_digits_unorm in Hd; rewrite Hn in Hd;
       simpl in Hd; lia).
Qed.

Lemma to_hex_uint_size (p : positive) :
  exists n,
    Hexadecimal.nb_digits (Pos.to_hex_uint p) = S n
    /\ (16 ^ N.of_nat n <= N.pos p < 16 ^ N.of_nat (S n))%N.
Proof.
  pose proof (to_hex_uint_head p) as Hh.
  pose proof (HexadecimalPos.Unsigned.of_to p) as Hv.
  destruct (Pos.to_hex_uint p) as [|d|d|d|d|d|d|d|d|d|d|d|d|d|d|d|d];
    try contradiction;
    exists (Hexadecimal.nb_digits d); (split; [reflexivity|]);
    simpl in Hv; injection Hv as Hv;
    match type of Hv with
    | Pos.of_hex_uint_acc d ?a = p =>
        pose proof (of_hex_uint_acc_bounds d a) as Hb
    end;
    rewrite Hv in Hb; rewrite Nat2N.inj_succ, N.pow_succ_r';
    assert (0 < 16 ^ N.of_nat (Hexadecimal.nb_digits d))%N
      by (apply N.neq_0_lt_0, N.pow_nonzero; discriminate);
    nia.
Qed.

Lemma toString16_size (rnd : N) :
  (rnd < 16777215)%N ->
  (1 <= List.length (toString16 rnd) <= 6)%nat
  /\ (List.length (toString16 rnd) = 6%nat <-> (1048576 <= rnd)%N).
Proof.
  intros Hr. unfold toString16. rewrite hex_units_length.
  destruct rnd as [|p]; [simpl; split; [lia|split; [discriminate|lia]]|].
  simpl N.to_hex_uint.
  destruct (to_hex_uint_size p) as [n [-> [Hlo Hhi]]].
  rewrite Nat2N.inj_succ, N.pow_succ_r' in Hhi.
  assert (Hn : (n <= 5)%nat).
  { destruct (Nat.le_gt_cases n 5) as [H|H]; [exact H|exfalso].
    assert (16 ^ 6 <= 16 ^ N.of_nat n)%N
      by (apply N.pow_le_mono_r; [discriminate | lia]).
    change (16 ^ 6)%N with 16777216%N in *. lia. }
  split; [lia|]. split.
  - intros E. assert (n = 5%nat) by lia. subst n.
    change (16 ^ N.of_nat 5)%N with 1048576%N in Hlo. exact Hlo.
  - intros Hge. f_equal.
    destruct (Nat.eq_dec n 5) as [E|E]; [exact E|exfalso].
    assert (16 ^ N.of_nat n <= 16 ^ 4)%N
      by (apply N.pow_le_mono_r; [discriminate | lia]).
    change (16 ^ 4)%N with 65536%N in *. lia.
Qed.

Lemma hex_value_step (acc : N) (c : N) (s : jsstring) (d : N) :
  JSON.hex_val c = Some d ->
  fold_left
    (fun acc c =>
       match acc, JSON.hex_val c with
       | Some a, Some d => Some (16 * a + d)%N
       | _, _ => None
       end)
    (c :: s) (Some acc)
  = fold_left
      (fun acc c =>
         match acc, JSON.hex_val c with
         | Some a, Some d => Some (16 * a + d)%N
         | _, _ => None
         end)
      s (Some (16 * acc + d)%N).
Proof. intros H. simpl. now rewrite H. Qed.

Lemma hex_value_acc (d : Hexadecimal.uint) (acc : positive) :
  fold_left
    (fun acc c =>
       match acc, JSON.hex_val c with
       | Some a, Some d => Some (16 * a + d)%N
       | _, _ => None
       end)
    (hex_units d) (Some (N.pos acc))
  = Some (N.pos (Pos.of_hex_uint_acc d acc)).
Proof.
  revert acc. induction d; intros acc; [reflexivity|..];
    simpl hex_units;
    (erewrite hex_value_step by reflexivity);
    simpl Pos.of_hex_uint_acc; rewrite <- IHd; do 2 f_equal; lia.
Qed.

Lemma hex_value_units (d : Hexadecimal.uint) :
  fold_left
    (fun acc c =>
       match acc, JSON.hex_val c with
       | Some a, Some d => Some (16 * a + d)%N
       | _, _ => None
       end)
    (hex_units d) (Some 0%N)
  = Some (Pos.of_hex_uint d).
Proof.
  induction d; [reflexivity|..];
    simpl hex_units;
    (erewrite hex_value_step by reflexivity);
    simpl Pos.of_hex_uint;
    [exact IHd | rewrite <- hex_value_acc; do 2 f_equal; lia ..].
Qed.

Lemma toString16_head (rnd : N) :
  exists c t, toString16 rnd = c :: t /\ (c = 48%N -> t = []).
Proof.
  unfold toString16. destruct rnd as [|p].
  - exists 48%N, []. split; reflexivity.
  - simpl N.to_hex_uint. pose proof (to_hex_uint_head p) as Hh.
    destruct (Pos.to_hex_uint p); try contradiction; simpl;
      eexists; eexists; (split; [reflexivity | discriminate]).
Qed.

Lemma hex_value_toString16 (rnd : N) : hex_value (toString16 rnd) = Some rnd.
Proof.
  destruct (toString16_head rnd) as [c [t [E _]]].
  unfold hex_value. rewrite E, <- E. unfold toString16.
  rewrite hex_value_units.
  f_equal. apply HexadecimalN.Unsigned.of_to.
Qed.

(** X12. The color given to a new player is [#] followed by the
    lower-case hexadecimal digits of the random number: the digits
    denote that number and have no leading zero (the number 0 is the
    single digit 0), so they are between one and six, and six of them (a
    color of the form [#rrggbb]) exactly when the number is at least
    0x100000. *)
Theorem addPlayer_color (st : State) (playerName : option jsstring)
    (now : Z) (rnd : N) :
  truthy playerName = true ->
  (rnd < 16777215)%N ->
  exists p digits,
    players (step st (AddPlayer playerName now rnd)) = players st ++ [p]
    /\ color p = 35%N :: digits
    /\ Forall is_hex_digit_unit digits
    /\ hex_value digits = Some rnd
    /\ (exists c t, digits = c :: t /\ (c = 48%N -> t = []))
    /\ (1 <= List.length digits <= 6)%nat
    /\ (List.length digits = 6%nat <-> (1048576 <= rnd)%N).
Proof.
  intros Ht Hr.
  destruct (truthy_cases playerName) as [[c [s [-> _]]]|[_ F]];
    [|congruence].
  rewrite step_addPlayer_some; simpl.
  eexists; exists (toString16 rnd).
  split; [reflexivity|]. split; [reflexivity|].
  split; [apply hex_units_digits|].
  split; [apply hex_value_toString16|].
  split; [apply toString16_head|].
  now apply toString16_size.
Qed.

Lemma addPlayer_color_witness :
  truthy (Some Alice) = true
  /\ (255 < 16777215)%N
  /\ exists p digits,
       players (step (mount 0) (AddPlayer (Some Alice) 100 255))
       = players (mount 0) ++ [p]
       /\ color p = 35%N :: digits
       /\ Forall is_hex_digit_unit digits
       /\ hex_value digits = Some 255%N
       /\ (exists c t, digits = c :: t /\ (c = 48%N -> t = []))
       /\ (1 <= List.length digits <= 6)%nat
       /\ (List.length digits = 6%nat <-> (1048576 <= 255)%N).
Proof.
  split; [reflexivity|]. split; [reflexivity|].
  apply (addPlayer_color (mount 0) (Some Alice) 100 255); reflexivity.
Defined.

(** ** The chart *)

Lemma In_Array_from_indices (n k : Z) :
  In k (Array_from_indices n) <-> 0 <= k < n.
Proof.
  unfold Array_from_indices. rewrite in_map_iff. split.
  - intros [j [<- Hj]]. apply in_seq in Hj. lia.
  - intros Hk. exists (Z.to_nat k). split; [lia|]. apply in_seq. lia.
Qed.

Lemma indices_increasing (a m : nat) :
  StronglySorted Z.lt (List.map Z.of_nat (seq a m)).
Proof.
  revert a. induction m as [|m IH]; intros a; simpl; constructor.
  - apply IH.
  - apply Forall_forall. intros k Hk. apply in_map_iff in Hk.
    destruct Hk as [j [<- Hj]]. apply in_seq in Hj. lia.
Qed.

(** X13. The labels of the chart are the whole seconds from 0 to
    [elapsedTime], each once and in increasing order; there is none when
    [elapsedTime] is negative. The chart has one dataset per player, in
    the order of the players. *)
Theorem graphData_labels (st : State) :
  (forall k, In k (labels (graphData st)) <-> 0 <= k <= elapsedTime st)
  /\ StronglySorted Z.lt (labels (graphData st))
  /\ List.length (labels (graphData st)) = Z.to_nat (elapsedTime st + 1)
  /\ List.map (fun d => (label d, data d, borderColor d))
       (datasets (graphData st))
     = List.map (fun p => (name p, dataPoints p, color p)) (players st).
Proof.
  simpl. split; [|split; [|split]].
  - intros k. rewrite In_Array_from_indices. lia.
  - apply indices_increasing.
  - unfold Array_from_indices. now rewrite length_map, length_seq.
  - now rewrite map_map.
Qed.

Lemma elapsed_nonneg (now start : Z) : start <= now -> 0 <= elapsed now start.
Proof. intros H. unfold elapsed. apply Z.div_pos; lia. Qed.

Lemma tl_map {A B : Type} (f : A -> B) (l : list A) :
  tl (List.map f l) = List.map f (tl l).
Proof. destruct l; reflexivity. Qed.

Lemma tl_xs_append (p : Player) (t s : Z) :
  Forall (fun u => 0 <= u <= t) (tl (xs p)) -> 0 <= t ->
  Forall (fun u => 0 <= u <= t)
    (tl (xs (with_dataPoints p (dataPoints p ++ [(t, s)])))).
Proof.
  intros H Ht. unfold xs in *. simpl. rewrite map_app. simpl.
  destruct (dataPoints p) as [|pt d]; simpl in *; [constructor|].
  apply Forall_app. split; [exact H|]. repeat constructor; lia.
Qed.

Lemma Forall_range_weaken (t t' : Z) (l : list Z) :
  t <= t' -> Forall (fun u => 0 <= u <= t) l ->
  Forall (fun u => 0 <= u <= t') l.
Proof.
  intros Ht H. eapply Forall_impl; [|exact H]. simpl. intros u Hu. lia.
Qed.

Lemma step_chart_ok (st : State) (e : Event) (last : Z) :
  chart_ok last st ->
  StronglySorted Z.le (last :: readings e) ->
  chart_ok (List.last (readings e) last) (step st e).
Proof.
  intros [Hstart [Het [Hfpt Hps]]] Hclock. unfold chart_ok.
  destruct e as [n now rnd|i|i now|i now|i c|now| |now1 now2].
  - destruct (truthy_cases n) as [[c [s [-> _]]]|[_ F]].
    + simpl in Hclock. apply StronglySorted_le_cons2 in Hclock.
      destruct Hclock as [Hnow _].
      pose proof (elapsed_mono last now (startTime st) Hnow).
      pose proof (elapsed_nonneg now (startTime st)).
      rewrite step_addPlayer_some; simpl.
      split; [lia|]. split; [lia|]. split.
      * destruct (firstPlayerTime st); lia.
      * apply Forall_app. split; [exact Hps|]. repeat constructor.
    + rewrite step_addPlayer_falsy by exact F. simpl. rewrite F. simpl.
      repeat split; tauto.
  - rewrite step_removePlayer; simpl.
    repeat split; try tauto. now apply Forall_filter.
  - simpl in Hclock. apply StronglySorted_le_cons2 in Hclock.
    destruct Hclock as [Hnow _].
    pose proof (elapsed_mono last now (startTime st) Hnow).
    pose proof (elapsed_nonneg now (startTime st)).
    rewrite step_incrementPlayer; simpl.
    split; [lia|]. split; [lia|]. split.
    * destruct (firstPlayerTime st); [lia | exact I].
    * rewrite map_map. eapply Forall_map_intro; [|exact Hps].
      intros p Hp.
      apply (tl_xs_append
               (if id p =? i then with_yValue p (yValue p + 1) else p));
        [|lia].
      apply Forall_range_weaken with (t := elapsedTime st); [lia|].
      now destruct (id p =? i).
  - simpl in Hclock. apply StronglySorted_le_cons2 in Hclock.
    destruct Hclock as [Hnow _].
    pose proof (elapsed_mono last now (startTime st) Hnow).
    pose proof (elapsed_nonneg now (startTime st)).
    rewrite step_decrementPlayer; simpl.
    split; [lia|]. split; [lia|]. split.
    * destruct (firstPlayerTime st); [lia | exact I].
    * rewrite map_map. eapply Forall_map_intro; [|exact Hps].
      intros p Hp.
      apply (tl_xs_append
               (if id p =? i then with_yValue p (yValue p - 1) else p));
        [|lia].
      apply Forall_range_weaken with (t := elapsedTime st); [lia|].
      now destruct (id p =? i).
  - rewrite step_changePlayerColor; simpl.
    repeat split; try tauto.
    eapply Forall_map_intro; [|exact Hps]. intros p Hp.
    now destruct (id p =? i).
  - rewrite step_resetAllPlayers; simpl. rewrite elapsed_origin.
    repeat split; try lia.
    eapply Forall_map_intro; [|exact Hps]. intros p _. constructor.
  - rewrite step_exportToJson. simpl. repeat split; tauto.
  - simpl in Hclock. apply StronglySorted_le_cons2 in Hclock.
    destruct Hclock as [Hnow1 Hclock].
    apply StronglySorted_le_cons2 in Hclock. destruct Hclock as [Hnow2 _].
    pose proof (elapsed_mono last now1 (startTime st) Hnow1).
    pose proof (elapsed_mono now1 now2 (startTime st) Hnow2).
    pose proof (elapsed_nonneg now1 (startTime st)).
    rewrite step_tick; simpl.
    split; [lia|]. split; [lia|]. split.
    * destruct (firstPlayerTime st); [lia | exact I].
    * eapply Forall_map_intro; [|exact Hps]. intros p Hp.
      apply Forall_range_weaken with (t := elapsed now1 (startTime st));
        [lia|].
      apply tl_xs_append; [|lia].
      apply Forall_range_weaken with (t := elapsedTime st); [lia|exact Hp].
Qed.

Lemma last_app_default (l1 l2 : list Z) (d : Z) :
  List.last (l1 ++ l2) d = List.last l2 (List.last l1 d).
Proof.
  revert d. induction l1 as [|a l1 IH]; intros d; [reflexivity|].
  change ((a :: l1) ++ l2) with (a :: l1 ++ l2).
  now rewrite !last_cons_default, IH.
Qed.

Lemma run_chart_ok (es : list Event) (st : State) (last : Z) :
  chart_ok last st ->
  StronglySorted Z.le (last :: flat_map readings es) ->
  chart_ok (List.last (flat_map readings es) last) (run st es).
Proof.
  revert st last. induction es as [|e es IH]; intros st last Hok Hclock;
    [exact Hok|].
  simpl flat_map in *. apply StronglySorted_le_split in Hclock.
  destruct Hclock as [He Hes].
  rewrite run_cons, last_app_default.
  apply IH; [|exact Hes]. now apply step_chart_ok.
Qed.

Lemma mount_chart_ok (t0 : Z) : chart_ok t0 (mount t0).
Proof.
  unfold chart_ok; simpl. rewrite elapsed_origin.
  repeat split; try lia. constructor.
Qed.

(** X14. On a clock that never goes backwards, in every state reached
    from the mounted component both bounds of the x axis are
    non-negative, every point of every dataset after its first lies
    between 0 and the upper bound [elapsedTime], and the upper bound is
    one of the labels. *)
Theorem chart_points_in_range (t0 : Z) (es : list Event) :
  clock_monotone t0 es ->
  let st := run (mount t0) es in
  let axis := x (scales (graphOptions st)) in
  0 <= min axis
  /\ 0 <= max axis
  /\ Forall (fun d => Forall (fun pt => 0 <= fst pt <= max axis) (tl (data d)))
       (datasets (graphData st))
  /\ In (max axis) (labels (graphData st)).
Proof.
  intros Hclock. cbv zeta.
  destruct (run_chart_ok es (mount t0) t0 (mount_chart_ok t0) Hclock)
    as [_ [Het [Hfpt Hps]]].
  simpl. repeat split.
  - destruct (firstPlayerTime (run (mount t0) es)); lia.
  - lia.
  - apply Forall_map. eapply Forall_impl; [|exact Hps].
    simpl. intros p Hp. unfold xs in Hp. rewrite tl_map in Hp.
    now apply Forall_map in Hp.
  - apply In_Array_from_indices. lia.
Qed.

Lemma chart_points_in_range_witness :
  clock_monotone 0 scenario_then_reset
  /\ let st := run (mount 0) scenario_then_reset in
     let axis := x (scales (graphOptions st)) in
     0 <= min axis
     /\ 0 <= max axis
     /\ Forall
          (fun d => Forall (fun pt => 0 <= fst pt <= max axis) (tl (data d)))
          (datasets (graphData st))
     /\ In (max axis) (labels (graphData st)).
Proof.
  assert (Hclock : clock_monotone 0 scenario_then_reset).
  { unfold clock_monotone; simpl.
    repeat (constructor; [|repeat (constructor; [lia|]); constructor]).
    constructor. }
  split; [exact Hclock|].
  exact (chart_points_in_range 0 scenario_then_reset Hclock).
Defined.

(** X15. On a clock that never goes backwards, right after an
    increment, a decrement or a tick the lower bound of the x axis
    ([firstPlayerTime], or 0) is at most its upper bound
    ([elapsedTime]). *)
Theorem axis_bounds_after_append (t0 : Z) (es : list Event) (e : Event) :
  clock_monotone t0 (es ++ [e]) ->
  append_time (run (mount t0) es) e <> None ->
  let axis := x (scales (graphOptions (run (mount t0) (es ++ [e])))) in
  min axis <= max axis.
Proof.
  intros Hclock Happ. cbv zeta.
  unfold clock_monotone in Hclock.
  rewrite flat_map_app in Hclock. apply StronglySorted_le_split in Hclock.
  destruct Hclock as [Hes He]. simpl flat_map in He.
  rewrite List.app_nil_r in He.
  pose proof (run_chart_ok es (mount t0) t0 (mount_chart_ok t0) Hes) as Hok.
  rewrite run_app. change (run ?s [e]) with (step s e).
  set (st := run (mount t0) es) in *.
  set (last := List.last (flat_map readings es) t0) in *.
  destruct Hok as [Hstart [Het [Hfpt _]]].
  destruct e as [n now rnd|i|i now|i now|i c|now| |now1 now2];
    try (exfalso; apply Happ; reflexivity).
  - simpl in He. apply StronglySorted_le_cons2 in He. destruct He as [Hnow _].
    pose proof (elapsed_mono last now (startTime st) Hnow).
    pose proof (elapsed_nonneg now (startTime st)).
    rewrite step_incrementPlayer; simpl.
    destruct (firstPlayerTime st); lia.
  - simpl in He. apply StronglySorted_le_cons2 in He. destruct He as [Hnow _].
    pose proof (elapsed_mono last now (startTime st) Hnow).
    pose proof (elapsed_nonneg now (startTime st)).
    rewrite step_decrementPlayer; simpl.
    destruct (firstPlayerTime st); lia.
  - simpl in He. apply StronglySorted_le_cons2 in He.
    destruct He as [Hnow1 He].
    apply StronglySorted_le_cons2 in He. destruct He as [Hnow2 _].
    pose proof (elapsed_mono last now1 (startTime st) Hnow1).
    pose proof (elapsed_mono now1 now2 (startTime st) Hnow2).
    pose proof (elapsed_nonneg now1 (startTime st)).
    rewrite step_tick; simpl.
    destruct (firstPlayerTime st); lia.
Qed.

Lemma axis_bounds_after_append_witness :
  clock_monotone 0 ([AddPlayer (Some Alice) 1500 255] ++ [Tick 2000 2001])
  /\ append_time (run (mount 0) [AddPlayer (Some Alice) 1500 255])
       (Tick 2000 2001) <> None
  /\ min (x (scales (graphOptions
                       (run (mount 0)
                          ([AddPlayer (Some Alice) 1500 255]
                           ++ [Tick 2000 2001])))))
     <= max (x (scales (graphOptions
                          (run (mount 0)
                             ([AddPlayer (Some Alice) 1500 255]
                              ++ [Tick 2000 2001]))))).
Proof.
  assert (Hclock : clock_monotone 0
                     ([AddPlayer (Some Alice) 1500 255] ++ [Tick 2000 2001])).
  { unfold clock_monotone; simpl.
    repeat (constructor; [|repeat (constructor; [lia|]); constructor]).
    constructor. }
  assert (Happ : append_time (run (mount 0) [AddPlayer (Some Alice) 1500 255])
                   (Tick 2000 2001) <> None) by discriminate.
  split; [exact Hclock|]. split; [exact Happ|].
  exact (axis_bounds_after_append 0 [AddPlayer (Some Alice) 1500 255]
           (Tick 2000 2001) Hclock Happ).
Defined.

(** Before the first append the bounds can be the wrong way round: a
    player added 1.5 s after mount puts the lower bound at 1 while the
    upper bound is still 0. *)
Example axis_bounds_before_first_append :
  let axis :=
    x (scales (graphOptions (run (mount 0) [AddPlayer (Some Alice) 1500 255])))
  in min axis = 1 /\ max axis = 0.
Proof. split; reflexivity. Qed.

(** ** An idle component *)

Lemma Forall2_map_l {A B C : Type} (R : B -> C -> Prop) (g : A -> B)
    (l : list A) (l' : list C) :
  Forall2 R (List.map g l) l' -> Forall2 (fun a c => R (g a) c) l l'.
Proof.
  revert l'. induction l as [|a l IH]; intros l' H; simpl in H;
    inversion H; subst; constructor; auto.
Qed.

(** X16. Left alone, the component only ticks, and ticks change no
    score: after any number of ticks every player has the id, name,
    color and score it had, its series has one more point per tick, each
    at the time of the first reading of that tick and each with the
    unchanged score; [firstPlayerTime], [nextPlayerId] and the clock
    origin stay as they were. *)
Theorem ticks_only (ts : list (Z * Z)) (st : State) :
  let st' := run st (List.map (fun t => Tick (fst t) (snd t)) ts) in
  Forall2
    (fun p q =>
       id q = id p /\ name q = name p /\ color q = color p
       /\ yValue q = yValue p
       /\ dataPoints q =
          dataPoints p
          ++ List.map (fun t => (elapsed (fst t) (startTime st), yValue p)) ts)
    (players st) (players st')
  /\ firstPlayerTime st' = firstPlayerTime st
  /\ nextPlayerId st' = nextPlayerId st
  /\ startTime st' = startTime st.
Proof.
  cbv zeta. revert st. induction ts as [|[now1 now2] ts IH]; intros st.
  - simpl. split; [|repeat split].
    induction (players st) as [|p l IHl]; constructor; [|exact IHl].
    rewrite List.app_nil_r. repeat split.
  - simpl List.map. rewrite run_cons.
    destruct (IH (step st (Tick now1 now2))) as [Hps [Hf [Hn Hs]]].
    rewrite step_tick in Hps, Hf, Hn, Hs. simpl in Hps, Hf, Hn, Hs.
    repeat split; try assumption.
    apply Forall2_map_l in Hps.
    eapply Forall2_impl; [|exact Hps]. simpl.
    intros p q [Hi [Hna [Hc [Hy Hd]]]]. repeat split; try assumption.
    rewrite Hd, <- List.app_assoc. reflexivity.
Qed.
